(** * adb-record-screen: the recording orchestrator of [index.js]

    A shallow embedding of [recordScreen] and its helpers.  The JavaScript
    objects the function receives are finite maps from property names to
    values, living in a store of objects addressed by references; the
    external tool ([adb]) and the Node.js runtime ([child_process],
    timers, promises) are the environment: every invocation the code
    performs is logged in a trace, and every answer of the environment is an
    input of a step function. *)

From stdpp Require Import base option list gmap strings pretty.
From Stdlib Require Import ZArith Ascii.
From Stdlib.Strings Require Byte.

Open Scope Z_scope.
Open Scope string_scope.
Open Scope list_scope.

(** ** JavaScript values and objects *)

(** The values an option can hold, after the type declarations of the
    package ([string], [number], [boolean], or absent).  Numbers are the
    integers, in the range where JavaScript prints all their digits;
    strings are sequences of 8-bit characters. *)
Inductive value : Type :=
| VUndef
| VBool (b : bool)
| VNum (n : Z)
| VStr (s : string).

#[global] Instance value_eq_dec : EqDecision value.
Proof. solve_decision. Defined.

(** [if (v)]: [undefined], [false], [0] and the empty string are falsy. *)
Definition truthy (v : value) : bool :=
  match v with
  | VUndef => false
  | VBool b => b
  | VNum n => negb (Z.eqb n 0)
  | VStr s => negb (String.eqb s "")
  end.

(** [String(v)] and the conversion inside a template literal. *)
Definition toString (v : value) : string :=
  match v with
  | VUndef => "undefined"
  | VBool true => "true"
  | VBool false => "false"
  | VNum n => pretty n
  | VStr s => s
  end.

(** An object is a finite map from property names to values. *)
Abbreviation obj := (gmap string value).

(** [o.k]: reading a property that the object does not have is [undefined]. *)
Definition get (o : obj) (k : string) : value := default VUndef (o !! k).

(** References to objects, and the store they live in. *)
Abbreviation loc := positive.
Abbreviation heap := (gmap loc obj).

(** [Object.assign(target, source)] where [target] is a reference into the
    store and [source] is a reference or [undefined]: every own property of
    the source is written into the target object, in place; a missing source
    is skipped.  The call returns [target]. *)
Definition Object_assign (h : heap) (target : loc) (source : option loc) : heap :=
  match source with
  | None => h
  | Some src =>
      match h !! src, h !! target with
      | Some s, Some t => <[target := s ∪ t]> h
      | _, _ => h
      end
  end.

(** An object literal evaluates to a new object at a location the store
    does not use yet. *)
Definition alloc (h : heap) (o : obj) : loc * heap :=
  let l := fresh (dom h) in (l, <[l := o]> h).

(** [xs.join('')] on an array of possibly missing strings: a missing
    element contributes the empty string. *)
Definition join (xs : list (option string)) : string :=
  foldr (fun x acc => default "" x +:+ acc) "" xs.

(** ** Argument builders *)

Coercion VStr : string >-> value.

(** [args.push(x, ...)] *)
Definition push (args : list value) (xs : list value) : list value := args ++ xs.

(** [buildADBArgs(options)] *)
Definition buildADBArgs (options : obj) : list value :=
  let args : list value := [] in
  let args :=
    if truthy (get options "serial")
    then push args [VStr "-s"; get options "serial"] else args in
  let args :=
    if truthy (get options "transportID")
    then push args [VStr "-t"; get options "transportID"] else args in
  args.

(** [buildScreenRecordArgs(fileName, options)] *)
Definition buildScreenRecordArgs (fileName : string) (options : obj) : list value :=
  let args : list value := [VStr "shell"; VStr "screenrecord"; VStr "--verbose"] in
  let args :=
    if truthy (get options "bugreport")
    then push args [VStr "--bugreport"] else args in
  let args :=
    if truthy (get options "size")
    then push args [VStr "--size"; get options "size"] else args in
  let args :=
    if truthy (get options "bitRate")
    then push args [VStr "--bit-rate"; VStr (toString (get options "bitRate"))]
    else args in
  let args :=
    if truthy (get options "timeLimit")
    then push args [VStr "--time-limit"; VStr (toString (get options "timeLimit"))]
    else args in
  push args [VStr fileName].

(** ** The environment: external tool and Node.js runtime *)

(** The error object of a failed invocation.  The code reads one property
    of it, [killed]; [message] stands for the rest (command line, exit
    code, captured error output). *)
Record jsError : Type := mkError { message : string; killed : bool }.

(** [Result]: the text of the two output streams. *)
Record Result : Type := mkResult { stdout : string; stderr : string }.

(** The child process object that [execFile] returns.  [killed] is the
    property of Node's [ChildProcess]: set once [kill] has delivered a
    signal to the process. *)
Record ChildProcess : Type := mkChild { child_killed : bool }.

(** What the orchestrator asks of its environment, in order. *)
Inductive event : Type :=
| ExecFileSync (args : list value) (timeout : option value)
| ExecFile (args : list value)
| Kill (signal : string)
| SetTimeout (delay : value).

(** The answers the environment gives during the synchronous part of
    [recordScreen]: the random file identifier and the outcome of each
    [execFileSync] call (the output converted to a string, or the error
    thrown). *)
Record Runtime : Type := mkRuntime {
  randomBytesHex : string;
  execFileSync : list value -> option value -> jsError + string
}.

(** ** State of one call of [recordScreen] *)

(** The promise of the handle and how far the chain
    [new Promise(recordingExecutor).then(pullFile).then(deleteFile)] got. *)
Inductive phase : Type :=
| Preflight
| Recording
| Delaying (result : Result)
| Pulling (result : Result)
| Deleting (result : Result)
| Fulfilled (result : Result)
| Rejected (error : jsError).

(** The constants of the closure. *)
Record closure : Type := mkClosure {
  fileName : string;
  opts : loc;
  deviceFileName : string;
  adbArgs : list value;
  args : list value
}.

Record state : Type := mkState {
  store : heap;
  cl : closure;
  connectOutput : option string;
  waitForDeviceOutput : option string;
  recordingProcess : option ChildProcess;
  promise : phase;
  trace : list event
}.

Definition set_connectOutput (x : option string) (s : state) : state :=
  mkState (store s) (cl s) x (waitForDeviceOutput s) (recordingProcess s)
    (promise s) (trace s).
Definition set_waitForDeviceOutput (x : option string) (s : state) : state :=
  mkState (store s) (cl s) (connectOutput s) x (recordingProcess s)
    (promise s) (trace s).
Definition set_recordingProcess (x : option ChildProcess) (s : state) : state :=
  mkState (store s) (cl s) (connectOutput s) (waitForDeviceOutput s) x
    (promise s) (trace s).
Definition set_promise (x : phase) (s : state) : state :=
  mkState (store s) (cl s) (connectOutput s) (waitForDeviceOutput s)
    (recordingProcess s) x (trace s).
Definition log (e : event) (s : state) : state :=
  mkState (store s) (cl s) (connectOutput s) (waitForDeviceOutput s)
    (recordingProcess s) (promise s) (trace s ++ [e]).

(** [opts.k], read through the reference. *)
Definition readOpts (s : state) (k : string) : value :=
  get (default ∅ (store s !! opts (cl s))) k.

(** ** The regular expression of [pullFile] *)

(** A character class. *)
Inductive charClass : Type :=
| Lit (c : ascii)
| NotLit (c : ascii)
| Dot.

Definition newline : ascii := "010"%char.
Definition carriageReturn : ascii := "013"%char.
Definition percent : ascii := "%"%char.

(** [.] matches every character but a line terminator: of the 8-bit
    characters, line feed and carriage return. *)
Definition classMatches (k : charClass) (c : ascii) : bool :=
  match k with
  | Lit a => Ascii.eqb c a
  | NotLit a => negb (Ascii.eqb c a)
  | Dot => negb (Ascii.eqb c newline) && negb (Ascii.eqb c carriageReturn)
  end.

(** A class, once or repeated: [k], [k+] (greedy), [k+?] (lazy). *)
Inductive atom : Type :=
| One (k : charClass)
| PlusGreedy (k : charClass)
| PlusLazy (k : charClass).

Definition atomClass (a : atom) : charClass :=
  match a with One k | PlusGreedy k | PlusLazy k => k end.

Abbreviation regex := (list atom).

(** The backtracking matcher, anchored at the start of [s]: the number of
    characters of the first match in the order of a backtracking search
    (a greedy repetition tries one more character first, a lazy one tries
    the rest of the expression first). *)
Fixpoint matchHere (s : string) (r : regex) {struct s} : option nat :=
  match r with
  | [] => Some 0%nat
  | a :: r' =>
      match s with
      | EmptyString => None
      | String c s' =>
          if classMatches (atomClass a) c then
            match a with
            | One _ => S <$> matchHere s' r'
            | PlusGreedy _ =>
                S <$> (match matchHere s' r with
                       | Some n => Some n
                       | None => matchHere s' r'
                       end)
            | PlusLazy _ =>
                S <$> (match matchHere s' r' with
                       | Some n => Some n
                       | None => matchHere s' r
                       end)
            end
          else None
      end
  end.

(** [s.replace(/r/g, '')]: scanning from the left, the first match at the
    current position is dropped and the scan goes on behind it; where the
    expression does not match (or matches the empty string), the character
    is kept.  [skip] counts the characters of the current match that are
    still to be dropped. *)
Fixpoint replaceFrom (r : regex) (s : string) (skip : nat) {struct s} : string :=
  match s with
  | EmptyString => EmptyString
  | String c s' =>
      match skip with
      | S k => replaceFrom r s' k
      | O =>
          match matchHere s r with
          | Some (S k) => replaceFrom r s' k
          | _ => String c (replaceFrom r s' 0)
          end
      end
  end.

Definition replaceAllEmpty (r : regex) (s : string) : string := replaceFrom r s 0.

(** [/[^\n]+%.+?\n/] *)
Definition progressRe : regex :=
  [PlusGreedy (NotLit newline); One (Lit percent); PlusLazy Dot; One (Lit newline)].

Definition nl : string := String newline EmptyString.

(** ** [recordScreen] *)

(** The object literal of the defaults. *)
Definition defaultOptions : obj :=
  <["port" := VNum 5555]>
    (<["waitTimeout" := VNum 5000]> (<["pullDelay" := VNum 200]> ∅)).

(** An exception thrown by the code itself. *)
Inductive exn : Type :=
| TypeError (msg : string).

(** [p.kill(signal)]: calling a method of [null] or [undefined] throws; on
    a child process object the runtime delivers the signal and sets its
    [killed] property. *)
Definition kill (p : option ChildProcess) (signal : string) : exn + ChildProcess :=
  match p with
  | Some _ => inr (mkChild true)
  | None => inl (TypeError "Cannot read properties of null")
  end.

(** [stop()] *)
Definition stop (s : state) : exn + state :=
  if bool_decide (is_Some (recordingProcess s)) then
    match kill (recordingProcess s) "SIGINT" with
    | inr p => inr (log (Kill "SIGINT") (set_recordingProcess (Some p) s))
    | inl e => inl e
    end
  else inr s.

(** [recordingExecutor(resolve, reject)], up to the return of [execFile]. *)
Definition recordingExecutor (s : state) : state :=
  set_promise Recording
    (set_recordingProcess (Some (mkChild false))
       (log (ExecFile (args (cl s))) s)).

(** [error && !error.killed]: the condition under which the callback of
    [recordingExecutor] rejects. *)
Definition failedUnkilled (error : option jsError) : option jsError :=
  match error with
  | Some e => if negb (killed e) then Some e else None
  | None => None
  end.

(** The callback that [recordingExecutor] hands to [execFile]. *)
Definition recordingCallback (s : state) (error : option jsError)
    (out err : string) : state :=
  let s := set_recordingProcess None s in
  match failedUnkilled error with
  | Some e => set_promise (Rejected e) s
  | None =>
      let result :=
        mkResult (join [connectOutput s; waitForDeviceOutput s; Some out]) err in
      set_promise (Delaying result) (log (SetTimeout (readOpts s "pullDelay")) s)
  end.

(** [pullFile(result)]: the invocation, and the function given to [then]. *)
Definition pullArgs (c : closure) : list value :=
  adbArgs c ++ [VStr "pull"; VStr "-a"; VStr (deviceFileName c); VStr (fileName c)].

Definition pullFile (s : state) (result : Result) : state :=
  set_promise (Pulling result) (log (ExecFile (pullArgs (cl s))) s).

Definition pullFileThen (result nextResult : Result) : Result :=
  mkResult (stdout result +:+ replaceAllEmpty progressRe (stdout nextResult))
           (stderr result +:+ stderr nextResult).

(** [deleteFile(result)]: the invocation, and the function given to [then]. *)
Definition deleteCmd (file : string) : string :=
  "rm " +:+ file +:+ " && am broadcast -a "
    +:+ "android.intent.action.MEDIA_SCANNER_SCAN_FILE" +:+ " -d file://" +:+ file.

Definition deleteArgs (c : closure) : list value :=
  adbArgs c ++ [VStr "shell"; VStr (deleteCmd (deviceFileName c))].

Definition deleteFile (s : state) (result : Result) : state :=
  set_promise (Deleting result) (log (ExecFile (deleteArgs (cl s))) s).

Definition deleteFileThen (result nextResult : Result) : Result :=
  mkResult (stdout result +:+ stdout nextResult)
           (stderr result +:+ stderr nextResult).

(** The two synchronous steps.  [inl] is the early return
    [{ promise: Promise.reject(error), stop }]. *)
Definition connectArgs (s : state) : list value :=
  [VStr "connect";
   VStr (toString (readOpts s "hostname") +:+ ":" +:+ toString (readOpts s "port"))].

Definition connectStep (rt : Runtime) (s : state) : state + state :=
  if truthy (readOpts s "hostname") then
    let s' := log (ExecFileSync (connectArgs s) None) s in
    match execFileSync rt (connectArgs s) None with
    | inr out => inr (set_connectOutput (Some out) s')
    | inl error => inl (set_promise (Rejected error) s')
    end
  else inr s.

Definition waitArgs : list value := [VStr "wait-for-device"].

Definition waitStep (rt : Runtime) (s : state) : state + state :=
  if truthy (readOpts s "waitTimeout") then
    let timeout := Some (readOpts s "waitTimeout") in
    let s' := log (ExecFileSync waitArgs timeout) s in
    match execFileSync rt waitArgs timeout with
    | inr out => inr (set_waitForDeviceOutput (Some out) s')
    | inl error => inl (set_promise (Rejected error) s')
    end
  else inr s.

(** [recordScreen(fileName, options)]: the state in which the call returns
    the handle.  [options] is a reference to the caller's object, or missing. *)
Definition recordScreen (rt : Runtime) (h : heap) (fileName : string)
    (options : option loc) : state :=
  let '(opts, h) := alloc h defaultOptions in
  let h := Object_assign h opts options in
  let o := default ∅ (h !! opts) in
  let fileID := randomBytesHex rt in
  let deviceFileName := "/sdcard/Movies/" +:+ fileID +:+ ".mp4" in
  let adbArgs := buildADBArgs o in
  let args := (adbArgs ++ buildScreenRecordArgs deviceFileName o)%list in
  let s :=
    mkState h (mkClosure fileName opts deviceFileName adbArgs args)
      None None None Preflight [] in
  match connectStep rt s with
  | inl s => s
  | inr s =>
      match waitStep rt s with
      | inl s => s
      | inr s => recordingExecutor s
      end
  end.

(** ** What happens after [recordScreen] has returned *)

(** How the record process can fail: it ends with an exit code other than
    0 or by a signal, or Node fails on its side (the process cannot be
    spawned, its output overflows the buffer). *)
Inductive failure : Type :=
| ExitFailure (msg : string)
| OtherFailure (msg : string).

(** The caller may call [stop]; the runtime reports the end of the record
    process, the timer, and the ends of the pull and delete processes. *)
Inductive input : Type :=
| Stop
| RecordExit (failed : option failure) (out err : string)
| TimerFired
| PullDone (r : jsError + Result)
| DeleteDone (r : jsError + Result).

(** The error that [execFile] passes to its callback.  For a process that
    ended with an exit code other than 0 or by a signal, Node builds the
    error with [killed] set to the [killed] property of the child process
    object; the other errors have no such property. *)
Definition exitError (p : ChildProcess) (failed : option failure) : option jsError :=
  match failed with
  | None => None
  | Some (ExitFailure m) => Some (mkError m (child_killed p))
  | Some (OtherFailure m) => Some (mkError m false)
  end.

(** One step; [None] when the input cannot occur in the state (or when
    [stop] throws). *)
Definition step (s : state) (i : input) : option state :=
  match i, promise s with
  | Stop, _ =>
      match stop s with
      | inr s' => Some s'
      | inl _ => None
      end
  | RecordExit failed out err, Recording =>
      match recordingProcess s with
      | Some p => Some (recordingCallback s (exitError p failed) out err)
      | None => None
      end
  | TimerFired, Delaying result => Some (pullFile s result)
  | PullDone (inr nextResult), Pulling result =>
      Some (deleteFile s (pullFileThen result nextResult))
  | PullDone (inl error), Pulling _ => Some (set_promise (Rejected error) s)
  | DeleteDone (inr nextResult), Deleting result =>
      Some (set_promise (Fulfilled (deleteFileThen result nextResult)) s)
  | DeleteDone (inl error), Deleting _ => Some (set_promise (Rejected error) s)
  | _, _ => None
  end.

Fixpoint run (s : state) (ins : list input) : option state :=
  match ins with
  | [] => Some s
  | i :: ins' =>
      match step s i with
      | Some s' => run s' ins'
      | None => None
      end
  end.

(** A runtime for the examples: every synchronous invocation succeeds and
    prints its own first argument. *)
Definition demoRuntime : Runtime :=
  mkRuntime "0123456789abcdef0123456789abcdef"
    (fun args _ => inr (toString (default VUndef (head args)) +:+ nl)).

(** A store with one caller object at reference 1. *)
Definition demoHeap (o : obj) : heap := {[ 1%positive := o ]}.

(** ** Notions used in the statements *)

(** The object the caller passed, if any. *)
Definition callerOptions (h : heap) (options : option loc) : obj :=
  match options with
  | Some l => default ∅ (h !! l)
  | None => ∅
  end.

(** The state of [recordScreen] when the closure has been built and the
    first synchronous step has not run yet. *)
Definition start (rt : Runtime) (h : heap) (fileName : string)
    (options : option loc) : state :=
  let l := fresh (dom h) in
  let h1 := Object_assign (<[l := defaultOptions]> h) l options in
  let o := default ∅ (h1 !! l) in
  let dev := "/sdcard/Movies/" +:+ randomBytesHex rt +:+ ".mp4" in
  mkState h1
    (mkClosure fileName l dev (buildADBArgs o)
       (buildADBArgs o ++ buildScreenRecordArgs dev o))
    None None None Preflight [].

(** An optional group of arguments. *)
Definition flag (b : bool) (xs : list value) : list value := if b then xs else [].

(** The states a call can be in, from its return on. *)
Definition reachable (rt : Runtime) (h : heap) (fileName : string)
    (options : option loc) (s : state) : Prop :=
  ∃ ins, run (recordScreen rt h fileName options) ins = Some s.

(** ** The shape of the trace *)

(** The events of the synchronous part. *)
Definition preflightEvent (s : state) (ev : event) : Prop :=
  ev = ExecFileSync (connectArgs s) None ∨
  ev = ExecFileSync waitArgs (Some (readOpts s "waitTimeout")).

Definition kills (n : nat) : list event := replicate n (Kill "SIGINT").
Definition recordEv (s : state) : event := ExecFile (args (cl s)).
Definition timerEv (s : state) : event := SetTimeout (readOpts s "pullDelay").
Definition pullEv (s : state) : event := ExecFile (pullArgs (cl s)).
Definition deleteEv (s : state) : event := ExecFile (deleteArgs (cl s)).

(** The trace, by the state of the promise: [pre] is the synchronous
    part, [n] the number of signals sent. *)
Definition traceInv (pre : list event) (s : state) : Prop :=
  match promise s with
  | Preflight => False
  | Recording =>
      ∃ n, trace s = pre ++ recordEv s :: kills n ∧
           recordingProcess s = Some (mkChild (negb (Nat.eqb n 0)))
  | Delaying _ =>
      recordingProcess s = None ∧
      ∃ n, trace s = pre ++ recordEv s :: kills n ++ [timerEv s]
  | Pulling _ =>
      recordingProcess s = None ∧
      ∃ n, trace s = pre ++ recordEv s :: kills n ++ [timerEv s; pullEv s]
  | Deleting _ | Fulfilled _ =>
      recordingProcess s = None ∧
      ∃ n, trace s = pre ++ recordEv s :: kills n ++ [timerEv s; pullEv s; deleteEv s]
  | Rejected e =>
      recordingProcess s = None ∧
      (trace s = pre ∨
       (killed e = false ∧ ∃ n, trace s = pre ++ recordEv s :: kills n) ∨
       (∃ n, trace s = pre ++ recordEv s :: kills n ++ [timerEv s; pullEv s]) ∨
       (∃ n, trace s =
             pre ++ recordEv s :: kills n ++ [timerEv s; pullEv s; deleteEv s]))
  end.

(** ** The synchronous part *)

(** The outcome of the connect step and of the wait step, when they run. *)
Definition connectResult (rt : Runtime) (s : state) : option (jsError + string) :=
  if truthy (readOpts s "hostname")
  then Some (execFileSync rt (connectArgs s) None) else None.

Definition waitResult (rt : Runtime) (s : state) : option (jsError + string) :=
  if truthy (readOpts s "waitTimeout")
  then Some (execFileSync rt waitArgs (Some (readOpts s "waitTimeout"))) else None.

Definition failureOf (r : option (jsError + string)) : option jsError :=
  match r with Some (inl e) => Some e | _ => None end.

Definition outputOf (r : option (jsError + string)) : option string :=
  match r with Some (inr out) => Some out | _ => None end.

(** The error of the first synchronous step that fails. *)
Definition preflightError (rt : Runtime) (s : state) : option jsError :=
  match failureOf (connectResult rt s) with
  | Some e => Some e
  | None => failureOf (waitResult rt s)
  end.

(** The invocations of the synchronous part. *)
Definition preflightTrace (rt : Runtime) (s : state) : list event :=
  match connectResult rt s with
  | None => []
  | Some _ => [ExecFileSync (connectArgs s) None]
  end ++
  match failureOf (connectResult rt s), waitResult rt s with
  | None, Some _ => [ExecFileSync waitArgs (Some (readOpts s "waitTimeout"))]
  | _, _ => []
  end.

(** A settled promise with no process to stop: nothing happens any more. *)
Definition settled (s : state) : Prop :=
  recordingProcess s = None ∧
  match promise s with Rejected _ | Fulfilled _ => True | _ => False end.

(** ** Notions of the claims, and sample calls *)

(** The selector arguments in front of an argument list. *)
Definition selectors (o : obj) : list value :=
  flag (truthy (get o "serial")) [VStr "-s"; get o "serial"]
  ++ flag (truthy (get o "transportID")) [VStr "-t"; get o "transportID"].

(** What the code does about selectors, per event: the three invocations
    of [execFile] (record, pull, delete) start with them; a synchronous
    invocation is the wait step or the connect step, and the connect step
    is [connect <hostname>:<port>] and nothing else. *)
Definition selectorsWhereDue (o : obj) (dev file : string) (ev : event) : Prop :=
  match ev with
  | ExecFile a =>
      a = selectors o ++ buildScreenRecordArgs dev o ∨
      a = selectors o ++ [VStr "pull"; VStr "-a"; VStr dev; VStr file] ∨
      a = selectors o ++ [VStr "shell"; VStr (deleteCmd dev)]
  | ExecFileSync a _ =>
      a = [VStr "connect";
           VStr (toString (get o "hostname") +:+ ":"
                   +:+ toString (get (o ∪ defaultOptions) "port"))] ∨
      head a = Some (VStr "wait-for-device")
  | Kill _ | SetTimeout _ => True
  end.

(** The arguments of an invocation of the external tool. *)
Definition invocationArgs (ev : event) : option (list value) :=
  match ev with
  | ExecFile a | ExecFileSync a _ => Some a
  | Kill _ | SetTimeout _ => None
  end.

(** A call with a serial and a host name, run to its end. *)
Definition demoOptions : obj :=
  <["serial" := VStr "banana"]> (<["hostname" := VStr "pixel"]> ∅).

Definition demoInputs : list input :=
  [Stop; RecordExit (Some (ExitFailure "Command failed")) "" ""; TimerFired;
   PullDone (inr (mkResult ("[100%] /sdcard/Movies/a.mp4" +:+ nl) ""));
   DeleteDone (inr (mkResult ("Broadcast completed" +:+ nl) ""))].

Definition demoCall : state :=
  recordScreen demoRuntime (demoHeap demoOptions) "/tmp/test.mp4" (Some 1%positive).

Definition demoEnd : state := default demoCall (run demoCall demoInputs).

(** A call without an options object, on an empty store. *)
Definition demoDefaultCall : state :=
  recordScreen demoRuntime ∅ "/tmp/test.mp4" None.

(** A runtime whose synchronous invocations all fail. *)
Definition failingRuntime : Runtime :=
  mkRuntime "0123456789abcdef0123456789abcdef"
    (fun _ _ => inl (mkError "spawnSync adb ENOENT" false)).

Definition failedCall : state :=
  recordScreen failingRuntime (demoHeap demoOptions) "/tmp/test.mp4"
    (Some 1%positive).

(** The demo call when the pull is awaited, and when the delete is. *)
Definition demoPulling : state :=
  default demoCall (run demoCall [RecordExit None "" ""; TimerFired]).

(** ** States that differ in the signals sent only *)



(** ** The progress lines of the pull output *)

(** [/r/.test(s)]: the expression matches at some position of [s]. *)
Fixpoint test (r : regex) (s : string) {struct s} : bool :=
  match matchHere s r with
  | Some _ => true
  | None =>
      match s with
      | EmptyString => false
      | String _ s' => test r s'
      end
  end.

(** The expression behind its first, second and third atom. *)
Definition afterLineStart : regex := [One (Lit percent); PlusLazy Dot; One (Lit newline)].
Definition afterPercent : regex := [PlusLazy Dot; One (Lit newline)].
Definition lineEnd : regex := [One (Lit newline)].

(** A character of a line, and a character that [.] matches. *)
Definition lineChar (c : ascii) : bool := negb (Ascii.eqb c newline).
Definition dotChar (c : ascii) : bool :=
  negb (Ascii.eqb c newline) && negb (Ascii.eqb c carriageReturn).

Fixpoint allChars (P : ascii → bool) (s : string) : bool :=
  match s with
  | EmptyString => true
  | String c s' => P c && allChars P s'
  end.


Definition orElse (a b : option nat) : option nat :=
  match a with Some n => Some n | None => b end.

(** ** The result of a run *)




(** ** The pull output as lines *)






(** ** The properties the code reads *)

(** The names of the properties that [recordScreen] and its helpers read
    from the merged options. *)
Definition documentedOptions : list string :=
  ["serial"; "transportID"; "hostname"; "port"; "waitTimeout"; "bugreport";
   "size"; "bitRate"; "timeLimit"; "pullDelay"].

(** Two states that differ at most in the store, and there not in the
    properties the code reads. *)
Definition sameButStore (s1 s2 : state) : Prop :=
  cl s1 = cl s2 ∧
  connectOutput s1 = connectOutput s2 ∧
  waitForDeviceOutput s1 = waitForDeviceOutput s2 ∧
  recordingProcess s1 = recordingProcess s2 ∧
  promise s1 = promise s2 ∧
  trace s1 = trace s2 ∧
  Forall (λ k, readOpts s1 k = readOpts s2 k) documentedOptions.

(** ** The random file identifier *)

(** [buffer.toString('hex')]: two lower-case hexadecimal digits per byte,
    the high four bits first. *)
Definition hexDigit (n : N) : ascii :=
  match n with
  | 0%N => "0"%char | 1%N => "1"%char | 2%N => "2"%char | 3%N => "3"%char
  | 4%N => "4"%char | 5%N => "5"%char | 6%N => "6"%char | 7%N => "7"%char
  | 8%N => "8"%char | 9%N => "9"%char | 10%N => "a"%char | 11%N => "b"%char
  | 12%N => "c"%char | 13%N => "d"%char | 14%N => "e"%char | _ => "f"%char
  end.

Fixpoint toHex (bytes : list Byte.byte) : string :=
  match bytes with
  | [] => EmptyString
  | b :: bytes' =>
      String (hexDigit (Byte.to_N b / 16)%N)
        (String (hexDigit (Byte.to_N b mod 16)%N) (toHex bytes'))
  end.

(** The way back, for the digits that [toHex] writes. *)
Definition hexValue (c : ascii) : option N :=
  let n := N_of_ascii c in
  if ((48 <=? n) && (n <=? 57))%N then Some (n - 48)%N
  else if ((97 <=? n) && (n <=? 102))%N then Some (n - 87)%N
  else None.

Fixpoint fromHex (s : string) : option (list Byte.byte) :=
  match s with
  | EmptyString => Some []
  | String hi (String lo s') =>
      match hexValue hi, hexValue lo, fromHex s' with
      | Some h, Some l, Some bytes =>
          match Byte.of_N (16 * h + l)%N with
          | Some b => Some (b :: bytes)
          | None => None
          end
      | _, _, _ => None
      end
  | String _ EmptyString => None
  end.

(** A character that the remote shell reads as it is: a letter, a digit,
    a slash or a dot. *)
Definition plainChar (c : ascii) : bool :=
  let n := N_of_ascii c in
  ((48 <=? n) && (n <=? 57) || (65 <=? n) && (n <=? 90)
   || (97 <=? n) && (n <=? 122) || (n =? 46) || (n =? 47))%N.

(** ** Earlier revisions of [index.js] *)

Module Legacy.

(** [buildScreenRecordArgs(fileName, options)] as it was before the bit
    rate and the time limit were converted with [String]. *)
Definition buildScreenRecordArgs (fileName : string) (options : obj) : list value :=
  let args : list value := [VStr "shell"; VStr "screenrecord"; VStr "--verbose"] in
  let args :=
    if truthy (get options "bugreport")
    then push args [VStr "--bugreport"] else args in
  let args :=
    if truthy (get options "size")
    then push args [VStr "--size"; get options "size"] else args in
  let args :=
    if truthy (get options "bitRate")
    then push args [VStr "--bit-rate"; get options "bitRate"] else args in
  let args :=
    if truthy (get options "timeLimit")
    then push args [VStr "--time-limit"; get options "timeLimit"] else args in
  push args [VStr fileName].

(** [if (x)] on a variable that holds a string or nothing. *)
Definition truthyOutput (x : option string) : bool :=
  match x with
  | Some s => negb (String.eqb s "")
  | None => false
  end.

(** The callback of the record process as it was when the outputs were
    put in front of [stdout] one by one. *)
Definition recordingCallback (s : state) (error : option jsError)
    (out err : string) : state :=
  let s := set_recordingProcess None s in
  match failedUnkilled error with
  | Some e => set_promise (Rejected e) s
  | None =>
      let out :=
        if truthyOutput (waitForDeviceOutput s)
        then default "" (waitForDeviceOutput s) +:+ out else out in
      let out :=
        if truthyOutput (connectOutput s)
        then default "" (connectOutput s) +:+ out else out in
      set_promise (Delaying (mkResult out err))
        (log (SetTimeout (readOpts s "pullDelay")) s)
  end.

End Legacy.

(** * Properties *)

(** ** The model on the cases of the test suite *)

Example buildScreenRecordArgs_timeLimit :
  buildScreenRecordArgs "/sdcard/Movies/video.mp4" {[ "timeLimit" := VNum 9 ]}
  = [VStr "shell"; VStr "screenrecord"; VStr "--verbose"; VStr "--time-limit";
     VStr "9"; VStr "/sdcard/Movies/video.mp4"].
Proof. vm_compute. reflexivity. Qed.

Example replace_progress_lines :
  replaceAllEmpty progressRe
    ("[ 50%] /sdcard/Movies/a.mp4" +:+ nl +:+ "[100%] /sdcard/Movies/a.mp4" +:+ nl
       +:+ "/sdcard/Movies/a.mp4: 1 file pulled." +:+ nl)
  = "/sdcard/Movies/a.mp4: 1 file pulled." +:+ nl.
Proof. vm_compute. reflexivity. Qed.

Example replace_keeps_bare_percentage :
  replaceAllEmpty progressRe ("100%" +:+ nl) = "100%" +:+ nl.
Proof. vm_compute. reflexivity. Qed.

Example recordScreen_serial_trace :
  trace (recordScreen demoRuntime (demoHeap {[ "serial" := VStr "banana" ]})
           "/tmp/test.mp4" (Some 1%positive))
  = [ExecFileSync [VStr "wait-for-device"] (Some (VNum 5000));
     ExecFile [VStr "-s"; VStr "banana"; VStr "shell"; VStr "screenrecord";
               VStr "--verbose";
               VStr "/sdcard/Movies/0123456789abcdef0123456789abcdef.mp4"]].
Proof. vm_compute. reflexivity. Qed.

(** ** The closure that [recordScreen] builds *)

Lemma recordScreen_start rt h f options :
  recordScreen rt h f options =
  match connectStep rt (start rt h f options) with
  | inl s => s
  | inr s =>
      match waitStep rt s with
      | inl s => s
      | inr s => recordingExecutor s
      end
  end.
Proof. reflexivity. Qed.

Lemma connectStep_frame rt s s' :
  connectStep rt s = inl s' ∨ connectStep rt s = inr s' →
  store s' = store s ∧ cl s' = cl s ∧
  waitForDeviceOutput s' = waitForDeviceOutput s ∧
  recordingProcess s' = recordingProcess s.
Proof.
  unfold connectStep.
  destruct (truthy _); [destruct (execFileSync _ _ _)|];
    intros [H|H]; inversion H; subst; done.
Qed.

Lemma waitStep_frame rt s s' :
  waitStep rt s = inl s' ∨ waitStep rt s = inr s' →
  store s' = store s ∧ cl s' = cl s ∧
  connectOutput s' = connectOutput s ∧
  recordingProcess s' = recordingProcess s.
Proof.
  unfold waitStep.
  destruct (truthy _); [destruct (execFileSync _ _ _)|];
    intros [H|H]; inversion H; subst; done.
Qed.

Lemma recordScreen_frame rt h f options :
  store (recordScreen rt h f options) = store (start rt h f options) ∧
  cl (recordScreen rt h f options) = cl (start rt h f options).
Proof.
  rewrite recordScreen_start.
  destruct (connectStep rt _) as [s1|s1] eqn:E1.
  - by destruct (connectStep_frame rt _ s1 (or_introl E1)) as (?&?&_).
  - destruct (connectStep_frame rt _ s1 (or_intror E1)) as (Hs&Hc&_).
    destruct (waitStep rt s1) as [s2|s2] eqn:E2.
    + destruct (waitStep_frame rt _ s2 (or_introl E2)) as (Hs2&Hc2&_).
      by rewrite Hs2, Hc2.
    + destruct (waitStep_frame rt _ s2 (or_intror E2)) as (Hs2&Hc2&_).
      simpl. by rewrite Hs2, Hc2.
Qed.

(** The merged options: the caller's properties over the defaults. *)
Lemma start_opts rt h f options :
  store (start rt h f options) !! opts (cl (start rt h f options))
  = Some (callerOptions h options ∪ defaultOptions).
Proof.
  unfold start; simpl.
  set (l := fresh (dom h)).
  assert (Hl : h !! l = None).
  { apply not_elem_of_dom. apply is_fresh. }
  destruct options as [src|]; simpl.
  - destruct (decide (src = l)) as [->|Hne].
    + rewrite lookup_insert_eq, Hl. simpl.
      rewrite lookup_insert_eq. apply (f_equal Some).
      rewrite (left_id_L ∅ (∪)). apply (idemp_L (∪)).
    + rewrite lookup_insert_ne by done.
      destruct (h !! src) as [co|] eqn:Hsrc; simpl.
      * rewrite lookup_insert_eq. by rewrite lookup_insert_eq.
      * rewrite lookup_insert_eq. by rewrite (left_id_L ∅ (∪)).
  - rewrite lookup_insert_eq. by rewrite (left_id_L ∅ (∪)).
Qed.

Lemma readOpts_recordScreen rt h f options k :
  readOpts (recordScreen rt h f options) k
  = get (callerOptions h options ∪ defaultOptions) k.
Proof.
  unfold readOpts.
  destruct (recordScreen_frame rt h f options) as [-> ->].
  by rewrite start_opts.
Qed.

Lemma get_union_default (co : obj) k :
  defaultOptions !! k = None → get (co ∪ defaultOptions) k = get co k.
Proof. intros H. unfold get. by rewrite lookup_union_l. Qed.

Lemma recordScreen_closure rt h f options :
  let o := callerOptions h options ∪ defaultOptions in
  let dev := "/sdcard/Movies/" +:+ randomBytesHex rt +:+ ".mp4" in
  cl (recordScreen rt h f options)
  = mkClosure f (fresh (dom h)) dev (buildADBArgs o)
      (buildADBArgs o ++ buildScreenRecordArgs dev o).
Proof.
  intros o dev.
  destruct (recordScreen_frame rt h f options) as [_ ->].
  pose proof (start_opts rt h f options) as Ho.
  unfold start in *; simpl in *. by rewrite Ho.
Qed.

Lemma buildADBArgs_shape (o : obj) :
  buildADBArgs o
  = (flag (truthy (get o "serial")) [VStr "-s"; get o "serial"]
     ++ flag (truthy (get o "transportID")) [VStr "-t"; get o "transportID"])%list.
Proof.
  unfold buildADBArgs, push, flag.
  by destruct (truthy (get o "serial")), (truthy (get o "transportID")).
Qed.

Lemma buildScreenRecordArgs_shape file (o : obj) :
  buildScreenRecordArgs file o
  = ([VStr "shell"; VStr "screenrecord"; VStr "--verbose"]
     ++ flag (truthy (get o "bugreport")) [VStr "--bugreport"]
     ++ flag (truthy (get o "size")) [VStr "--size"; get o "size"]
     ++ flag (truthy (get o "bitRate"))
          [VStr "--bit-rate"; VStr (toString (get o "bitRate"))]
     ++ flag (truthy (get o "timeLimit"))
          [VStr "--time-limit"; VStr (toString (get o "timeLimit"))]
     ++ [VStr file])%list.
Proof.
  unfold buildScreenRecordArgs, push, flag.
  by destruct (truthy (get o "bugreport")), (truthy (get o "size")),
    (truthy (get o "bitRate")), (truthy (get o "timeLimit")).
Qed.

(** The builders read the caller's properties: no default has one of
    their names. *)
Lemma buildADBArgs_merged (co : obj) :
  buildADBArgs (co ∪ defaultOptions) = buildADBArgs co.
Proof. unfold buildADBArgs. by rewrite !get_union_default. Qed.

Lemma buildScreenRecordArgs_merged file (co : obj) :
  buildScreenRecordArgs file (co ∪ defaultOptions) = buildScreenRecordArgs file co.
Proof. unfold buildScreenRecordArgs. by rewrite !get_union_default. Qed.


(** ** Steps keep the closure and the store *)

Ltac step_cases H :=
  unfold step, stop, kill, recordingCallback, failedUnkilled, exitError, pullFile, deleteFile in H;
  repeat case_match; simplify_eq; simpl in *.

Lemma step_frame s i s' :
  step s i = Some s' →
  store s' = store s ∧ cl s' = cl s ∧
  connectOutput s' = connectOutput s ∧
  waitForDeviceOutput s' = waitForDeviceOutput s.
Proof. intros H. step_cases H; done. Qed.

Lemma run_app s ins1 ins2 :
  run s (ins1 ++ ins2) = run s ins1 ≫= λ s', run s' ins2.
Proof.
  revert s. induction ins1 as [|i ins1 IH]; intros s; simpl; [done|].
  destruct (step s i); simpl; [apply IH | done].
Qed.

Lemma run_frame s ins s' :
  run s ins = Some s' →
  store s' = store s ∧ cl s' = cl s ∧
  connectOutput s' = connectOutput s ∧
  waitForDeviceOutput s' = waitForDeviceOutput s.
Proof.
  revert s. induction ins as [|i ins IH]; intros s; simpl.
  - intros [= ->]. done.
  - destruct (step s i) as [s1|] eqn:E; [|done].
    intros H. destruct (IH _ H) as (?&?&?&?).
    destruct (step_frame _ _ _ E) as (?&?&?&?).
    repeat split; etrans; eauto.
Qed.

Lemma readOpts_frame s s' k :
  store s' = store s → cl s' = cl s → readOpts s' k = readOpts s k.
Proof. unfold readOpts. by intros -> ->. Qed.

(** ** The shape of the trace is an invariant *)

Lemma stop_inactive s : recordingProcess s = None → stop s = inr s.
Proof. unfold stop. intros ->. by rewrite bool_decide_eq_false_2 by by intros []. Qed.

Lemma stop_active s p :
  recordingProcess s = Some p →
  stop s = inr (log (Kill "SIGINT") (set_recordingProcess (Some (mkChild true)) s)).
Proof. unfold stop. intros ->. by rewrite bool_decide_eq_true_2 by by eexists. Qed.

Lemma traceInv_step pre s i s' :
  traceInv pre s → step s i = Some s' → traceInv pre s'.
Proof.
  intros Hinv H. unfold traceInv in *. destruct i; unfold step in H.
  - (* stop *)
    destruct (recordingProcess s) as [p|] eqn:Hrp.
    + rewrite (stop_active _ _ Hrp) in H. injection H as <-. simpl.
      destruct (promise s); try (by destruct Hinv as [? _]); [done|].
      destruct Hinv as (n & Ht & _). exists (S n). split; [|done].
      rewrite Ht. unfold kills, recordEv.
      rewrite replicate_S_end. rewrite <- app_assoc. reflexivity.
    + rewrite (stop_inactive _ Hrp) in H. injection H as <-. by rewrite Hrp.
  - (* the record process ends *)
    destruct (promise s) eqn:Hp; try discriminate H.
    destruct Hinv as (n & Ht & Hrp). rewrite Hrp in H. injection H as <-.
    unfold recordingCallback, failedUnkilled, exitError.
    destruct failed as [[m|m]|]; simpl.
    + destruct n as [|n]; simpl.
      * split; [done|]. right; left. split; [done|]. by exists 0%nat.
      * split; [done|]. exists (S n). rewrite Ht.
        by rewrite <- (assoc_L (++)).
    + split; [done|]. right; left. split; [done|]. by exists n.
    + split; [done|]. exists n. rewrite Ht. by rewrite <- (assoc_L (++)).
  - (* the timer *)
    destruct (promise s) eqn:Hp; try discriminate H.
    injection H as <-. simpl. destruct Hinv as (Hrp & n & Ht).
    split; [done|]. exists n. rewrite Ht.
    rewrite <- !(assoc_L (++)). simpl. by rewrite <- (assoc_L (++)).
  - (* the pull process ends *)
    destruct (promise s) eqn:Hp; try (by destruct r).
    destruct Hinv as (Hrp & n & Ht).
    destruct r as [e|next]; injection H as <-; simpl.
    + split; [done|]. right; right; left. by exists n.
    + split; [done|]. exists n. rewrite Ht.
      rewrite <- !(assoc_L (++)). simpl. by rewrite <- (assoc_L (++)).
  - (* the delete process ends *)
    destruct (promise s) eqn:Hp; try (by destruct r).
    destruct Hinv as (Hrp & n & Ht).
    destruct r as [e|next]; injection H as <-; simpl.
    + split; [done|]. right; right; right. by exists n.
    + split; [done|]. by exists n.
Qed.

Lemma traceInv_run pre s ins s' :
  traceInv pre s → run s ins = Some s' → traceInv pre s'.
Proof.
  revert s. induction ins as [|i ins IH]; intros s Hinv; simpl.
  - by intros [= <-].
  - destruct (step s i) as [s1|] eqn:E; [|done].
    apply IH. by eapply traceInv_step.
Qed.

Lemma connectArgs_frame s s' :
  store s' = store s → cl s' = cl s → connectArgs s' = connectArgs s.
Proof. intros Hs Hc. unfold connectArgs. by rewrite !(readOpts_frame s s'). Qed.

Lemma preflight_frame rt s s' :
  store s' = store s → cl s' = cl s →
  connectResult rt s' = connectResult rt s ∧
  waitResult rt s' = waitResult rt s ∧
  preflightError rt s' = preflightError rt s ∧
  preflightTrace rt s' = preflightTrace rt s.
Proof.
  intros Hs Hc.
  unfold preflightTrace, preflightError, connectResult, waitResult.
  by rewrite (connectArgs_frame s s'), !(readOpts_frame s s').
Qed.

Lemma start_spec rt h f options :
  let st := start rt h f options in
  let s := recordScreen rt h f options in
  match preflightError rt st with
  | Some e =>
      promise s = Rejected e ∧ trace s = preflightTrace rt st ∧
      recordingProcess s = None
  | None =>
      promise s = Recording ∧
      trace s = preflightTrace rt st ++ [ExecFile (args (cl st))] ∧
      recordingProcess s = Some (mkChild false) ∧
      connectOutput s = outputOf (connectResult rt st) ∧
      waitForDeviceOutput s = outputOf (waitResult rt st)
  end.
Proof.
  intros st s. subst s. rewrite recordScreen_start. fold st.
  unfold preflightError, preflightTrace, connectResult, waitResult,
    connectStep, waitStep.
  assert (Hst : trace st = [] ∧ recordingProcess st = None ∧
                connectOutput st = None ∧ waitForDeviceOutput st = None) by done.
  destruct Hst as (Ht & Hrp & Hco & Hwo).
  destruct (truthy (readOpts st "hostname"));
    [destruct (execFileSync rt (connectArgs st) None) as [e|out]|]; simpl;
    rewrite ?Ht; try done.
  - change (readOpts (set_connectOutput _ (log _ st)) "waitTimeout")
      with (readOpts st "waitTimeout").
    destruct (truthy (readOpts st "waitTimeout"));
      [destruct (execFileSync rt waitArgs _) as [e|out']|]; simpl;
      rewrite ?Ht; done.
  - destruct (truthy (readOpts st "waitTimeout"));
      [destruct (execFileSync rt waitArgs _) as [e|out']|]; simpl;
      rewrite ?Ht, ?Hrp, ?Hco, ?Hwo; done.
Qed.

(** The same, stated on the state the call returns. *)
Lemma recordScreen_spec rt h f options :
  let s := recordScreen rt h f options in
  match preflightError rt s with
  | Some e =>
      promise s = Rejected e ∧ trace s = preflightTrace rt s ∧
      recordingProcess s = None
  | None =>
      promise s = Recording ∧
      trace s = preflightTrace rt s ++ [recordEv s] ∧
      recordingProcess s = Some (mkChild false) ∧
      connectOutput s = outputOf (connectResult rt s) ∧
      waitForDeviceOutput s = outputOf (waitResult rt s)
  end.
Proof.
  intros s. subst s.
  destruct (recordScreen_frame rt h f options) as [Hs Hc].
  destruct (preflight_frame rt _ _ Hs Hc) as (-> & -> & -> & ->).
  unfold recordEv. rewrite Hc. apply start_spec.
Qed.

Lemma preflightTrace_events rt s :
  Forall (preflightEvent s) (preflightTrace rt s).
Proof.
  unfold preflightTrace, preflightEvent.
  apply Forall_app. split.
  - destruct (connectResult rt s); [|done].
    apply Forall_singleton. by left.
  - destruct (failureOf _), (waitResult rt s); try done.
    apply Forall_singleton. by right.
Qed.

Lemma traceInv_init rt h f options :
  let s := recordScreen rt h f options in traceInv (preflightTrace rt s) s.
Proof.
  intros s. pose proof (recordScreen_spec rt h f options) as H.
  fold s in H. simpl in H. unfold traceInv.
  destruct (preflightError rt s) as [e|].
  - destruct H as (-> & -> & ->). split; [done|]. by left.
  - destruct H as (-> & -> & -> & _). by exists 0%nat.
Qed.

(** Every state of a call satisfies the invariant, with the closure and
    the store of the call. *)
Lemma reachable_inv rt h f options s :
  reachable rt h f options s →
  let s0 := recordScreen rt h f options in
  store s = store s0 ∧ cl s = cl s0 ∧
  connectOutput s = connectOutput s0 ∧
  waitForDeviceOutput s = waitForDeviceOutput s0 ∧
  traceInv (preflightTrace rt s) s.
Proof.
  intros [ins Hrun] s0.
  destruct (run_frame _ _ _ Hrun) as (Hs & Hc & Hco & Hwo).
  repeat split; try done.
  destruct (preflight_frame rt _ _ Hs Hc) as (_ & _ & _ & ->).
  eapply traceInv_run; [|exact Hrun]. apply traceInv_init.
Qed.

Lemma settled_step s i s' : settled s → step s i = Some s' → s' = s.
Proof.
  intros [Hrp Hp] H. unfold step in H.
  rewrite (stop_inactive _ Hrp) in H.
  destruct i, (promise s); try done; try (by destruct r); by injection H.
Qed.

Lemma settled_run s ins s' : settled s → run s ins = Some s' → s' = s.
Proof.
  intros Hs. induction ins as [|i ins IH]; simpl.
  - by intros [= <-].
  - destruct (step s i) as [s1|] eqn:E; [|done].
    rewrite (settled_step _ _ _ Hs E). apply IH.
Qed.

Lemma reachable_run rt h f options s ins s' :
  reachable rt h f options s → run s ins = Some s' →
  reachable rt h f options s'.
Proof.
  intros [ins0 H0] H. exists (ins0 ++ ins). rewrite run_app, H0. exact H.
Qed.


(** Every event of a trace is one of six. *)
Lemma trace_elem rt h f options s ev :
  reachable rt h f options s → ev ∈ trace s →
  preflightEvent s ev ∨ ev = recordEv s ∨ ev = Kill "SIGINT" ∨
  ev = timerEv s ∨ ev = pullEv s ∨ ev = deleteEv s.
Proof.
  intros Hr Hin. destruct (reachable_inv _ _ _ _ _ Hr) as (_&_&_&_&Hinv).
  pose proof (preflightTrace_events rt s) as Hpre.
  rewrite Forall_forall in Hpre.
  assert (Hk : ∀ n, ev ∈ kills n → ev = Kill "SIGINT").
  { intros n. apply elem_of_replicate_inv. }
  unfold traceInv in Hinv.
  destruct (promise s); try done;
    repeat match goal with
      | H : _ ∧ _ |- _ => destruct H
      | H : _ ∨ _ |- _ => destruct H
      | H : ∃ _, _ |- _ => destruct H
      end;
    match goal with H : trace s = _ |- _ => rewrite H in Hin end;
    repeat (rewrite ?elem_of_app, ?elem_of_cons, ?elem_of_nil in Hin);
    repeat match goal with H : _ ∨ _ |- _ => destruct H end;
    try done; auto 10.
  all: right; right; left; eapply Hk; eassumption.
Qed.

(** ** A sample run *)

Lemma demoEnd_reachable :
  reachable demoRuntime (demoHeap demoOptions) "/tmp/test.mp4" (Some 1%positive)
    demoEnd.
Proof. exists demoInputs. vm_compute. reflexivity. Qed.

Example demoEnd_trace :
  trace demoEnd
  = [ExecFileSync [VStr "connect"; VStr "pixel:5555"] None;
     ExecFileSync [VStr "wait-for-device"] (Some (VNum 5000));
     ExecFile [VStr "-s"; VStr "banana"; VStr "shell"; VStr "screenrecord";
               VStr "--verbose";
               VStr "/sdcard/Movies/0123456789abcdef0123456789abcdef.mp4"];
     Kill "SIGINT";
     SetTimeout (VNum 200);
     ExecFile [VStr "-s"; VStr "banana"; VStr "pull"; VStr "-a";
               VStr "/sdcard/Movies/0123456789abcdef0123456789abcdef.mp4";
               VStr "/tmp/test.mp4"];
     ExecFile [VStr "-s"; VStr "banana"; VStr "shell";
               VStr ("rm /sdcard/Movies/0123456789abcdef0123456789abcdef.mp4"
                     +:+ " && am broadcast -a "
                     +:+ "android.intent.action.MEDIA_SCANNER_SCAN_FILE"
                     +:+ " -d file:///sdcard/Movies/0123456789abcdef0123456789abcdef.mp4")]].
Proof. vm_compute. reflexivity. Qed.

Example demoEnd_result :
  promise demoEnd
  = Fulfilled (mkResult ("connect" +:+ nl +:+ "wait-for-device" +:+ nl
                           +:+ "Broadcast completed" +:+ nl) "").
Proof. vm_compute. reflexivity. Qed.

(** ** Device selectors and the record command *)

Lemma reachable_closure rt h f options s :
  reachable rt h f options s →
  let o := callerOptions h options in
  let dev := "/sdcard/Movies/" +:+ randomBytesHex rt +:+ ".mp4" in
  cl s = mkClosure f (fresh (dom h)) dev (selectors o)
           (selectors o ++ buildScreenRecordArgs dev o) ∧
  ∀ k, readOpts s k = get (o ∪ defaultOptions) k.
Proof.
  intros Hr o dev.
  destruct (reachable_inv _ _ _ _ _ Hr) as (Hs & Hc & _).
  split.
  - rewrite Hc, recordScreen_closure.
    by rewrite buildADBArgs_merged, buildScreenRecordArgs_merged,
      buildADBArgs_shape.
  - intros k. rewrite (readOpts_frame _ _ k Hs Hc).
    apply readOpts_recordScreen.
Qed.

(** C1 (as the code has it).  In every state of every call, the three
    invocations made through [execFile] (record, pull, delete) start with
    the selector arguments, [-s <serial>] then [-t <transportID>], each
    present when its option is truthy; the connect step is invoked with
    [connect <hostname>:<port>], without selectors. *)
Theorem selectors_prepended_to_device_invocations rt h f options s :
  reachable rt h f options s →
  Forall (selectorsWhereDue (callerOptions h options) (deviceFileName (cl s)) f)
    (trace s).
Proof.
  intros Hr. apply Forall_forall. intros ev Hin.
  destruct (reachable_closure _ _ _ _ _ Hr) as [Hc Hro].
  destruct (trace_elem _ _ _ _ _ _ Hr Hin)
    as [[->| ->]| [->| [->| [->| [->| ->]]]]]; simpl; try done.
  - left. unfold connectArgs. rewrite !Hro.
    by rewrite (get_union_default _ "hostname").
  - by right.
  - left. unfold recordEv. by rewrite Hc.
  - right; left. unfold pullArgs. by rewrite Hc.
  - right; right. unfold deleteArgs. by rewrite Hc.
Qed.

Lemma selectors_prepended_witness :
  Forall (selectorsWhereDue demoOptions (deviceFileName (cl demoEnd)) "/tmp/test.mp4")
    (trace demoEnd).
Proof.
  apply (selectors_prepended_to_device_invocations demoRuntime
           (demoHeap demoOptions) "/tmp/test.mp4" (Some 1%positive) demoEnd).
  exists demoInputs. vm_compute. reflexivity.
Defined.

(** C1 fails as stated: with a serial and a host name, the connect
    invocation does not start with the selector arguments. *)
Lemma selectors_missing_on_connect :
  adbArgs (cl demoCall) = [VStr "-s"; VStr "banana"] ∧
  ¬ Forall (λ ev, match invocationArgs ev with
                  | Some a => adbArgs (cl demoCall) `prefix_of` a
                  | None => True
                  end) (trace demoCall).
Proof.
  split; [by vm_compute|].
  intros H. apply Forall_cons in H as [[k Hk] _].
  vm_compute in Hk. discriminate Hk.
Qed.


(** An empty size is not a size: the flag is left out. *)
Example record_command_empty_size :
  args (cl (recordScreen demoRuntime (demoHeap {[ "size" := VStr "" ]})
              "/tmp/test.mp4" (Some 1%positive)))
  = [VStr "shell"; VStr "screenrecord"; VStr "--verbose";
     VStr "/sdcard/Movies/0123456789abcdef0123456789abcdef.mp4"].
Proof. vm_compute. reflexivity. Qed.

(** C2 fails as stated: without options, the merged options hold no bit
    rate and no time limit, and the record command has neither flag. *)
Lemma default_call_has_no_rate_or_limit_flag :
  (readOpts demoDefaultCall "bitRate" ≠ VNum 4000000) ∧
  (readOpts demoDefaultCall "timeLimit" ≠ VNum 180) ∧
  (VStr "--bit-rate" ∉ args (cl demoDefaultCall)) ∧
  (VStr "--time-limit" ∉ args (cl demoDefaultCall)) ∧
  args (cl demoDefaultCall)
  = [VStr "shell"; VStr "screenrecord"; VStr "--verbose";
     VStr "/sdcard/Movies/0123456789abcdef0123456789abcdef.mp4"].
Proof.
  assert (Ha : args (cl demoDefaultCall)
               = [VStr "shell"; VStr "screenrecord"; VStr "--verbose";
                  VStr "/sdcard/Movies/0123456789abcdef0123456789abcdef.mp4"])
    by by vm_compute.
  repeat split; try exact Ha; try (by vm_compute).
  - rewrite Ha. intros H. repeat (apply elem_of_cons in H as [H|H]; [done|]).
    by apply elem_of_nil in H.
  - rewrite Ha. intros H. repeat (apply elem_of_cons in H as [H|H]; [done|]).
    by apply elem_of_nil in H.
Qed.

(** C2 (as the code has it).  When the caller sets neither [bitRate] nor
    [timeLimit], the merged options leave both undefined and the record
    command carries neither flag: it is the selector arguments, [shell
    screenrecord --verbose], the bugreport and size flags when those
    options are truthy, and the remote file name.  The defaults that are
    merged are those of [port], [waitTimeout] and [pullDelay]. *)
Theorem unset_rate_and_limit_add_no_flag rt h f options :
  let s := recordScreen rt h f options in
  let o := callerOptions h options in
  get o "bitRate" = VUndef → get o "timeLimit" = VUndef →
  readOpts s "bitRate" = VUndef ∧ readOpts s "timeLimit" = VUndef ∧
  args (cl s)
  = selectors o
    ++ [VStr "shell"; VStr "screenrecord"; VStr "--verbose"]
    ++ flag (truthy (get o "bugreport")) [VStr "--bugreport"]
    ++ flag (truthy (get o "size")) [VStr "--size"; get o "size"]
    ++ [VStr (deviceFileName (cl s))] ∧
  (o !! "port" = None → readOpts s "port" = VNum 5555) ∧
  (o !! "waitTimeout" = None → readOpts s "waitTimeout" = VNum 5000) ∧
  (o !! "pullDelay" = None → readOpts s "pullDelay" = VNum 200).
Proof.
  intros s o Hb Ht.
  assert (Hr : reachable rt h f options s) by by exists [].
  destruct (reachable_closure _ _ _ _ _ Hr) as [Hc Hro]. fold o in Hc, Hro.
  rewrite !Hro, !get_union_default, Hb, Ht by done.
  repeat split.
  - rewrite Hc; simpl. rewrite buildScreenRecordArgs_shape, Hb, Ht. done.
  - intros Hn. unfold get. by rewrite lookup_union_r.
  - intros Hn. unfold get. by rewrite lookup_union_r.
  - intros Hn. unfold get. by rewrite lookup_union_r.
Qed.

Lemma unset_rate_and_limit_witness :
  readOpts demoCall "bitRate" = VUndef ∧ readOpts demoCall "timeLimit" = VUndef ∧
  args (cl demoCall)
  = selectors demoOptions
    ++ [VStr "shell"; VStr "screenrecord"; VStr "--verbose"]
    ++ flag (truthy (get demoOptions "bugreport")) [VStr "--bugreport"]
    ++ flag (truthy (get demoOptions "size")) [VStr "--size"; get demoOptions "size"]
    ++ [VStr (deviceFileName (cl demoCall))] ∧
  (demoOptions !! "port" = None → readOpts demoCall "port" = VNum 5555) ∧
  (demoOptions !! "waitTimeout" = None →
   readOpts demoCall "waitTimeout" = VNum 5000) ∧
  (demoOptions !! "pullDelay" = None → readOpts demoCall "pullDelay" = VNum 200).
Proof.
  apply (unset_rate_and_limit_add_no_flag demoRuntime (demoHeap demoOptions)
           "/tmp/test.mp4" (Some 1%positive)); vm_compute; reflexivity.
Defined.

(** ** The caller's options object *)

(** C10.  The caller's options object is never written: in every state of
    the call the store holds it, and every other object the caller had,
    unchanged; the merged options live in an object that did not exist
    before the call.  A call without an options object returns the same
    state as a call with an empty one. *)
Theorem options_object_not_mutated rt h f lo co s :
  h !! lo = Some co →
  reachable rt h f (Some lo) s →
  store s !! lo = Some co ∧
  (∀ l o, h !! l = Some o → store s !! l = Some o) ∧
  h !! opts (cl s) = None ∧
  store s !! opts (cl s) = Some (co ∪ defaultOptions) ∧
  (co = ∅ → recordScreen rt h f None = recordScreen rt h f (Some lo)).
Proof.
  intros Hlo Hr.
  destruct (reachable_inv _ _ _ _ _ Hr) as (Hs & Hc & _).
  destruct (recordScreen_frame rt h f (Some lo)) as [Hs0 Hc0].
  rewrite Hs0 in Hs. rewrite Hc0 in Hc.
  pose proof (start_opts rt h f (Some lo)) as Hopts.
  rewrite <- Hs, <- Hc in Hopts. simpl in Hopts. rewrite Hlo in Hopts.
  assert (Hl : h !! fresh (dom h) = None).
  { apply not_elem_of_dom, is_fresh. }
  assert (Hne : fresh (dom h) ≠ lo) by congruence.
  assert (Hst : store s = <[fresh (dom h) := co ∪ defaultOptions]> h).
  { rewrite Hs. unfold start; simpl.
    rewrite lookup_insert_ne by exact Hne. rewrite Hlo, lookup_insert_eq.
    apply insert_insert_eq. }
  assert (Hframe : ∀ l o, h !! l = Some o → store s !! l = Some o).
  { intros l o Hlook. rewrite Hst, lookup_insert_ne; [done|congruence]. }
  repeat split; auto.
  - by rewrite Hc.
  - intros ->. rewrite !recordScreen_start.
    replace (start rt h f (Some lo)) with (start rt h f None); [done|].
    assert (Hlook : <[fresh (dom h) := defaultOptions]> h !! lo = Some ∅)
      by (by rewrite lookup_insert_ne).
    unfold start; simpl. rewrite Hlook, lookup_insert_eq.
    rewrite (left_id_L ∅ (∪)), insert_insert_eq.
    by rewrite !lookup_insert_eq.
Qed.

Lemma options_object_not_mutated_witness :
  store demoEnd !! 1%positive = Some demoOptions ∧
  (∀ l o, demoHeap demoOptions !! l = Some o → store demoEnd !! l = Some o) ∧
  demoHeap demoOptions !! opts (cl demoEnd) = None ∧
  store demoEnd !! opts (cl demoEnd) = Some (demoOptions ∪ defaultOptions) ∧
  (demoOptions = ∅ →
   recordScreen demoRuntime (demoHeap demoOptions) "/tmp/test.mp4" None
   = recordScreen demoRuntime (demoHeap demoOptions) "/tmp/test.mp4"
       (Some 1%positive)).
Proof.
  apply (options_object_not_mutated demoRuntime (demoHeap demoOptions)
           "/tmp/test.mp4" 1%positive demoOptions demoEnd).
  - vm_compute. reflexivity.
  - exists demoInputs. vm_compute. reflexivity.
Defined.

(** ** Which states have a process to stop *)



(** ** The events of a trace are told apart *)

Lemma split_unique {A} (x : A) l1 l2 t1 t2 :
  x ∉ l1 → x ∉ l2 → l1 ++ x :: l2 = t1 ++ x :: t2 → t1 = l1 ∧ t2 = l2.
Proof.
  revert t1. induction l1 as [|a l1 IH]; intros t1 H1 H2 Heq.
  - destruct t1 as [|y t1]; simpl in Heq.
    + by injection Heq as ->.
    + injection Heq as <- ->. exfalso. apply H2.
      apply elem_of_app. right. by left.
  - destruct t1 as [|y t1]; simpl in Heq.
    + injection Heq as -> _. exfalso. apply H1. by left.
    + injection Heq as <- Heq.
      destruct (IH t1) as [-> ->]; try done.
      intros Hin. apply H1. by right.
Qed.

Lemma pull_not_record rt h f options s :
  reachable rt h f options s → pullEv s ≠ recordEv s.
Proof.
  intros Hr. destruct (reachable_closure _ _ _ _ _ Hr) as [Hc _].
  unfold pullEv, recordEv, pullArgs. rewrite Hc. simpl.
  rewrite buildScreenRecordArgs_shape. intros [= Heq].
  apply app_inv_head in Heq. discriminate Heq.
Qed.

Lemma delete_not_record rt h f options s :
  reachable rt h f options s → deleteEv s ≠ recordEv s.
Proof.
  intros Hr. destruct (reachable_closure _ _ _ _ _ Hr) as [Hc _].
  unfold deleteEv, recordEv, deleteArgs. rewrite Hc. simpl.
  rewrite buildScreenRecordArgs_shape. intros [= Heq].
  apply app_inv_head in Heq. discriminate Heq.
Qed.

Lemma delete_not_pull s : deleteEv s ≠ pullEv s.
Proof.
  unfold deleteEv, pullEv, deleteArgs, pullArgs. intros [= Heq].
  apply app_inv_head in Heq. discriminate Heq.
Qed.

(** Before the timer is set, the trace holds neither the pull nor the
    delete invocation. *)
Lemma not_in_recording_part rt h f options s n ev :
  reachable rt h f options s → ev = pullEv s ∨ ev = deleteEv s →
  ev ∉ preflightTrace rt s ++ recordEv s :: kills n.
Proof.
  intros Hr Hev Hin.
  pose proof (preflightTrace_events rt s) as Hpre.
  rewrite Forall_forall in Hpre.
  pose proof (pull_not_record _ _ _ _ _ Hr).
  pose proof (delete_not_record _ _ _ _ _ Hr).
  apply elem_of_app in Hin as [Hin|Hin].
  - destruct (Hpre _ Hin) as [->| ->]; by destruct Hev.
  - apply elem_of_cons in Hin as [->|Hin]; [by destruct Hev|].
    apply elem_of_replicate_inv in Hin as ->. by destruct Hev.
Qed.

(** In every trace, the pull invocation comes right after the timer. *)
Lemma pull_follows_timer rt h f options s t1 t2 :
  reachable rt h f options s →
  trace s = t1 ++ pullEv s :: t2 →
  ∃ t0, t1 = t0 ++ [timerEv s].
Proof.
  intros Hr Ht. destruct (reachable_inv _ _ _ _ _ Hr) as (_&_&_&_&Hinv).
  assert (Hpart : ∀ n, pullEv s ∉ preflightTrace rt s ++ recordEv s :: kills n)
    by (intros n; eapply not_in_recording_part; eauto).
  assert (Htimer : ∀ n,
    pullEv s ∉ (preflightTrace rt s ++ recordEv s :: kills n) ++ [timerEv s]).
  { intros n Hin. apply elem_of_app in Hin as [Hin|Hin]; [by apply (Hpart n)|].
    by apply list_elem_of_singleton in Hin. }
  assert (Hdel : pullEv s ∉ [deleteEv s]).
  { intros Hin. apply list_elem_of_singleton in Hin.
    by apply (delete_not_pull s). }
  assert (Hcase :
    (∃ n, trace s = ((preflightTrace rt s ++ recordEv s :: kills n)
                       ++ [timerEv s]) ++ pullEv s :: []) ∨
    (∃ n, trace s = ((preflightTrace rt s ++ recordEv s :: kills n)
                       ++ [timerEv s]) ++ pullEv s :: [deleteEv s]) ∨
    pullEv s ∉ trace s).
  { unfold traceInv in Hinv. destruct (promise s); try done.
    - right; right. destruct Hinv as (n & -> & _). apply Hpart.
    - right; right. destruct Hinv as (_ & n & ->).
      rewrite (assoc_L (++) _ [recordEv s] (kills n ++ [timerEv s])).
      rewrite (assoc_L (++)), <- (assoc_L (++) _ [recordEv s]). apply Htimer.
    - left. destruct Hinv as (_ & n & ->). exists n.
      by rewrite <- !(assoc_L (++)).
    - right; left. destruct Hinv as (_ & n & ->). exists n.
      by rewrite <- !(assoc_L (++)).
    - right; left. destruct Hinv as (_ & n & ->). exists n.
      by rewrite <- !(assoc_L (++)).
    - destruct Hinv as (_ & [->|[[_ [n ->]]|[[n ->]|[n ->]]]]).
      + right; right. intros Hin. apply (Hpart 0%nat).
        apply elem_of_app. by left.
      + right; right. apply (Hpart n).
      + left. exists n. by rewrite <- !(assoc_L (++)).
      + right; left. exists n. by rewrite <- !(assoc_L (++)). }
  destruct Hcase as [[n Hn]|[[n Hn]|Hnot]].
  - rewrite Hn in Ht. apply split_unique in Ht as [-> _]; eauto.
    apply not_elem_of_nil.
  - rewrite Hn in Ht. apply split_unique in Ht as [-> _]; eauto.
  - exfalso. apply Hnot. rewrite Ht. apply elem_of_app. right. by left.
Qed.

(** ** The ways a call fails *)

(** C5.  When the connect step runs and fails, or the wait step runs and
    fails after a connect step that passed or was skipped, the call returns
    a promise rejected with that error; the trace holds synchronous
    invocations only; [stop] returns without an effect; and no input
    changes the state any more, so nothing is invoked later. *)
Theorem preflight_failure_aborts rt h f options e :
  let s0 := recordScreen rt h f options in
  connectResult rt s0 = Some (inl e) ∨
  (failureOf (connectResult rt s0) = None ∧ waitResult rt s0 = Some (inl e)) →
  promise s0 = Rejected e ∧
  Forall (preflightEvent s0) (trace s0) ∧
  Forall (λ ev, ∀ a, ev ≠ ExecFile a) (trace s0) ∧
  stop s0 = inr s0 ∧
  ∀ s, reachable rt h f options s → s = s0.
Proof.
  intros s0 Hfail.
  assert (He : preflightError rt s0 = Some e).
  { unfold preflightError. destruct Hfail as [-> | [-> ->]]; done. }
  pose proof (recordScreen_spec rt h f options) as Hspec.
  fold s0 in Hspec. simpl in Hspec. rewrite He in Hspec.
  destruct Hspec as (Hp & Ht & Hrp).
  pose proof (preflightTrace_events rt s0) as Hpre. rewrite <- Ht in Hpre.
  repeat split; try done.
  - eapply Forall_impl; [exact Hpre|]. by intros ev [-> | ->] a.
  - by apply stop_inactive.
  - intros s [ins Hrun]. eapply settled_run; [|exact Hrun].
    split; [done|]. by rewrite Hp.
Qed.

Lemma preflight_failure_witness :
  promise failedCall = Rejected (mkError "spawnSync adb ENOENT" false) ∧
  Forall (preflightEvent failedCall) (trace failedCall) ∧
  Forall (λ ev, ∀ a, ev ≠ ExecFile a) (trace failedCall) ∧
  stop failedCall = inr failedCall ∧
  ∀ s, reachable failingRuntime (demoHeap demoOptions) "/tmp/test.mp4"
         (Some 1%positive) s → s = failedCall.
Proof.
  apply (preflight_failure_aborts failingRuntime (demoHeap demoOptions)
           "/tmp/test.mp4" (Some 1%positive)).
  left. vm_compute. reflexivity.
Defined.

(** C4.  In a state where the record process runs:
    - if the process fails and the error is not marked [killed] (no signal
      was sent, or the error is Node's own), the promise is rejected with
      that error, nothing is invoked, and nothing happens afterwards, so
      neither the pull nor the delete invocation is ever in the trace;
    - if the process ends without an error, or with an error marked
      [killed], the callback sets a timer of [pullDelay] milliseconds and
      invokes nothing; the pull is invoked when that timer fires;
    - in every trace, the pull invocation comes right after that timer. *)
Theorem record_exit_rejects_or_delays rt h f options s p :
  reachable rt h f options s →
  promise s = Recording → recordingProcess s = Some p →
  (∀ fl e out err,
     exitError p (Some fl) = Some e → killed e = false → ∃ s1,
       step s (RecordExit (Some fl) out err) = Some s1 ∧
       promise s1 = Rejected e ∧
       trace s1 = trace s ∧
       (pullEv s ∉ trace s1) ∧ (deleteEv s ∉ trace s1) ∧
       ∀ ins s2, run s1 ins = Some s2 → s2 = s1) ∧
  (child_killed p = false → ∀ m e,
     exitError p (Some (ExitFailure m)) = Some e → killed e = false) ∧
  (∀ failed out err,
     failed = None ∨ (∃ e, exitError p failed = Some e ∧ killed e = true) →
     ∃ s1 s2,
       step s (RecordExit failed out err) = Some s1 ∧
       promise s1 =
         Delaying (mkResult
                     (join [connectOutput s; waitForDeviceOutput s; Some out]) err) ∧
       trace s1 = trace s ++ [SetTimeout (readOpts s "pullDelay")] ∧
       (pullEv s ∉ trace s1) ∧
       step s1 TimerFired = Some s2 ∧
       trace s2 = trace s1 ++ [pullEv s]) ∧
  (∀ s' t1 t2, reachable rt h f options s' →
     trace s' = t1 ++ pullEv s' :: t2 → ∃ t0, t1 = t0 ++ [timerEv s']).
Proof.
  intros Hr Hp Hrp.
  destruct (reachable_inv _ _ _ _ _ Hr) as (_&_&_&_&Hinv).
  unfold traceInv in Hinv. rewrite Hp in Hinv. destruct Hinv as (n & Ht & _).
  assert (Hpart : ∀ ev, ev = pullEv s ∨ ev = deleteEv s → ev ∉ trace s).
  { intros ev Hev. rewrite Ht. eapply not_in_recording_part; eauto. }
  split; [|split; [|split]].
  - intros fl e out err He Hk. eexists. unfold step. rewrite Hp, Hrp, He.
    split; [reflexivity|].
    unfold recordingCallback, failedUnkilled; simpl. rewrite Hk; simpl.
    repeat split; auto.
    intros ins s2. apply settled_run. by split.
  - intros Hk m e [= <-]. exact Hk.
  - intros failed out err Hcase.
    assert (Hcb : recordingCallback s (exitError p failed) out err
                  = set_promise
                      (Delaying (mkResult
                         (join [connectOutput s; waitForDeviceOutput s; Some out])
                         err))
                      (log (SetTimeout (readOpts s "pullDelay"))
                         (set_recordingProcess None s))).
    { unfold recordingCallback, failedUnkilled.
      destruct Hcase as [-> | (e & -> & Hk)]; [done|]. by rewrite Hk. }
    eexists _, _. unfold step at 1. rewrite Hp, Hrp, Hcb.
    split; [reflexivity|]. simpl. repeat split; try done.
    intros Hin. apply elem_of_app in Hin as [Hin|Hin].
    + by apply (Hpart (pullEv s)); [left|].
    + by apply list_elem_of_singleton in Hin.
  - intros s' t1 t2 Hr'. by apply (pull_follows_timer rt h f options).
Qed.

Lemma record_exit_witness :
  (∀ fl e out err,
     exitError (mkChild false) (Some fl) = Some e → killed e = false → ∃ s1,
       step demoCall (RecordExit (Some fl) out err) = Some s1 ∧
       promise s1 = Rejected e ∧
       trace s1 = trace demoCall ∧
       (pullEv demoCall ∉ trace s1) ∧ (deleteEv demoCall ∉ trace s1) ∧
       ∀ ins s2, run s1 ins = Some s2 → s2 = s1) ∧
  (child_killed (mkChild false) = false → ∀ m e,
     exitError (mkChild false) (Some (ExitFailure m)) = Some e →
     killed e = false) ∧
  (∀ failed out err,
     failed = None ∨
     (∃ e, exitError (mkChild false) failed = Some e ∧ killed e = true) →
     ∃ s1 s2,
       step demoCall (RecordExit failed out err) = Some s1 ∧
       promise s1 =
         Delaying (mkResult (join [connectOutput demoCall;
                                   waitForDeviceOutput demoCall; Some out]) err) ∧
       trace s1 = trace demoCall ++ [SetTimeout (readOpts demoCall "pullDelay")] ∧
       (pullEv demoCall ∉ trace s1) ∧
       step s1 TimerFired = Some s2 ∧
       trace s2 = trace s1 ++ [pullEv demoCall]) ∧
  (∀ s' t1 t2,
     reachable demoRuntime (demoHeap demoOptions) "/tmp/test.mp4"
       (Some 1%positive) s' →
     trace s' = t1 ++ pullEv s' :: t2 → ∃ t0, t1 = t0 ++ [timerEv s']).
Proof.
  apply (record_exit_rejects_or_delays demoRuntime (demoHeap demoOptions)
           "/tmp/test.mp4" (Some 1%positive) demoCall (mkChild false)).
  - exists []. reflexivity.
  - vm_compute. reflexivity.
  - vm_compute. reflexivity.
Defined.



(** ** [stop] *)







Example stop_while_recording :
  (trace <$> step demoCall Stop) = Some (trace demoCall ++ [Kill "SIGINT"]) ∧
  (recordingProcess <$> step demoCall Stop) = Some (Some (mkChild true)).
Proof. split; vm_compute; reflexivity. Qed.




(** An error of Node's own is not marked, and rejects the promise even
    after [stop]. *)
Example other_failure_after_stop :
  (promise <$> run demoCall [Stop; RecordExit (Some (OtherFailure "maxBuffer")) "" ""])
  = Some (Rejected (mkError "maxBuffer" false)).
Proof. vm_compute. reflexivity. Qed.

(** ** The replacement in the pull output *)

Lemma matchHere_progressRe c s :
  matchHere (String c s) progressRe
  = if lineChar c
    then S <$> orElse (matchHere s progressRe) (matchHere s afterLineStart)
    else None.
Proof. reflexivity. Qed.

Lemma matchHere_afterLineStart c s :
  matchHere (String c s) afterLineStart
  = if Ascii.eqb c percent then S <$> matchHere s afterPercent else None.
Proof. reflexivity. Qed.

Lemma matchHere_afterPercent c s :
  matchHere (String c s) afterPercent
  = if dotChar c
    then S <$> orElse (matchHere s lineEnd) (matchHere s afterPercent)
    else None.
Proof. reflexivity. Qed.

Lemma matchHere_lineEnd c s :
  matchHere (String c s) lineEnd
  = if Ascii.eqb c newline then Some 1%nat else None.
Proof. simpl. by destruct (Ascii.eqb c newline), s. Qed.

Lemma fmap_S_None (o : option nat) : S <$> o = None → o = None.
Proof. by destruct o. Qed.

Lemma orElse_None a b : orElse a b = None → a = None ∧ b = None.
Proof. by destruct a. Qed.


(** The replacement keeps a character where the expression does not
    match. *)
Lemma replace_keep c s :
  matchHere (String c s) progressRe = None →
  replaceAllEmpty progressRe (String c s)
  = String c (replaceAllEmpty progressRe s).
Proof.
  intros H. unfold replaceAllEmpty.
  change (replaceFrom progressRe (String c s) 0)
    with (match matchHere (String c s) progressRe with
          | Some (S k) => replaceFrom progressRe s k
          | _ => String c (replaceFrom progressRe s 0)
          end).
  by rewrite H.
Qed.

(** Where no match can start or go on in the input, none can in the
    output. *)
Lemma kept_text_no_match s :
  matchHere s progressRe = None → matchHere s afterLineStart = None →
  matchHere (replaceAllEmpty progressRe s) progressRe = None ∧
  matchHere (replaceAllEmpty progressRe s) afterLineStart = None ∧
  (matchHere s afterPercent = None →
   matchHere (replaceAllEmpty progressRe s) afterPercent = None) ∧
  (matchHere s lineEnd = None →
   matchHere (replaceAllEmpty progressRe s) lineEnd = None).
Proof.
  induction s as [|c s IH]; [done|].
  intros H0 H1. rewrite (replace_keep _ _ H0).
  rewrite matchHere_progressRe in H0 |- *.
  rewrite matchHere_afterLineStart in H1 |- *.
  rewrite !matchHere_afterPercent, !matchHere_lineEnd.
  destruct (lineChar c) eqn:Hc.
  - apply fmap_S_None, orElse_None in H0 as [H0 H0'].
    destruct (IH H0 H0') as (IH0 & IH1 & IH2 & IH3).
    rewrite IH0, IH1. simpl.
    assert (Hnl : Ascii.eqb c newline = false).
    { unfold lineChar in Hc. by destruct (Ascii.eqb c newline). }
    rewrite Hnl. repeat split; try done.
    + destruct (Ascii.eqb c percent); [|done].
      apply fmap_S_None in H1. by rewrite (IH2 H1).
    + destruct (dotChar c); [|done].
      intros [H3 H2]%fmap_S_None%orElse_None.
      by rewrite (IH3 H3), (IH2 H2).
  - assert (Hnl : Ascii.eqb c newline = true).
    { unfold lineChar in Hc. by destruct (Ascii.eqb c newline). }
    assert (Hp : Ascii.eqb c percent = false).
    { apply Ascii.eqb_eq in Hnl as ->. done. }
    assert (Hd : dotChar c = false).
    { unfold dotChar. by rewrite Hnl. }
    rewrite Hp, Hd, Hnl. done.
Qed.

(** After the replacement the expression matches nowhere. *)
Lemma replaceFrom_no_match s k :
  test progressRe (replaceFrom progressRe s k) = false.
Proof.
  revert k. induction s as [|c s IH]; intros k; [done|].
  destruct k as [|k]; [|apply IH].
  change (replaceFrom progressRe (String c s) 0)
    with (match matchHere (String c s) progressRe with
          | Some (S k) => replaceFrom progressRe s k
          | _ => String c (replaceFrom progressRe s 0)
          end).
  destruct (matchHere (String c s) progressRe) as [[|n]|] eqn:Hm; [| apply IH |].
  - rewrite matchHere_progressRe in Hm.
    destruct (lineChar c); [|done]. by destruct (orElse _ _).
  - change (test progressRe (String c (replaceAllEmpty progressRe s)) = false).
    simpl test. fold (replaceAllEmpty progressRe s) in IH.
    assert (Hout : matchHere (String c (replaceAllEmpty progressRe s)) progressRe
                   = None).
    { rewrite matchHere_progressRe in Hm |- *.
      destruct (lineChar c); [|done].
      apply fmap_S_None, orElse_None in Hm as [H0 H1].
      destruct (kept_text_no_match s H0 H1) as (-> & -> & _). done. }
    change (match matchHere (String c (replaceAllEmpty progressRe s)) progressRe with
            | Some _ => true
            | None => test progressRe (replaceAllEmpty progressRe s)
            end = false).
    rewrite Hout. apply (IH 0%nat).
Qed.

(** *** What the expression matches *)

Lemma string_app_nil_r (s : string) : s +:+ "" = s.
Proof.
  induction s as [|c s IH]; [done|].
  change (String c (s +:+ "") = String c s). by f_equal.
Qed.

Lemma string_app_assoc (a b c : string) : (a +:+ b) +:+ c = a +:+ (b +:+ c).
Proof.
  induction a as [|x a IH]; [done|].
  change (String x ((a +:+ b) +:+ c) = String x (a +:+ (b +:+ c))). by f_equal.
Qed.

Lemma test_unfold r s :
  test r s
  = match matchHere s r with
    | Some _ => true
    | None => match s with EmptyString => false | String _ s' => test r s' end
    end.
Proof. by destruct s. Qed.







(** *** The replacement, line by line *)

Lemma allChars_app P a b :
  allChars P (a +:+ b) = allChars P a && allChars P b.
Proof.
  induction a as [|c a IH]; [done|].
  change (String c a +:+ b) with (String c (a +:+ b)). simpl.
  by rewrite IH, andb_assoc.
Qed.


Lemma string_length_app (a b : string) :
  String.length (a +:+ b) = (String.length a + String.length b)%nat.
Proof.
  induction a as [|c a IH]; [done|].
  change (String c a +:+ b) with (String c (a +:+ b)). simpl. by rewrite IH.
Qed.

Lemma afterPercent_sound s n :
  matchHere s afterPercent = Some n →
  ∃ v rest, s = v +:+ String newline rest ∧ v ≠ "" ∧
            allChars dotChar v = true ∧ n = S (String.length v).
Proof.
  revert n. induction s as [|c x IH]; intros n; [done|].
  rewrite matchHere_afterPercent. destruct (dotChar c) eqn:Hc; [|done].
  destruct (matchHere x lineEnd) as [m|] eqn:Hend; simpl.
  - intros [= <-]. destruct x as [|d x]; [done|].
    rewrite matchHere_lineEnd in Hend.
    destruct (Ascii.eqb d newline) eqn:Hd; [|done].
    apply Ascii.eqb_eq in Hd as ->. injection Hend as <-.
    exists (String c ""), x. simpl. by rewrite Hc.
  - destruct (matchHere x afterPercent) as [m|] eqn:Hm; [|done].
    intros [= <-]. destruct (IH m eq_refl) as (v & rest & -> & Hv & Hdv & ->).
    exists (String c v), rest. simpl. by rewrite Hc, Hdv.
Qed.

Lemma progressRe_sound s n :
  matchHere s progressRe = Some n →
  ∃ u v rest,
    s = u +:+ String percent (v +:+ String newline rest) ∧
    u ≠ "" ∧ allChars lineChar u = true ∧
    v ≠ "" ∧ allChars dotChar v = true ∧
    n = (String.length u + S (S (String.length v)))%nat.
Proof.
  revert n. induction s as [|c x IH]; intros n; [done|].
  rewrite matchHere_progressRe. destruct (lineChar c) eqn:Hc; [|done].
  destruct (matchHere x progressRe) as [m|] eqn:Hm; simpl.
  - intros [= <-].
    destruct (IH m eq_refl) as (u & v & rest & -> & Hu & Hlu & Hv & Hdv & ->).
    exists (String c u), v, rest. simpl. by rewrite Hc, Hlu.
  - destruct x as [|d y]; [done|]. rewrite matchHere_afterLineStart.
    destruct (Ascii.eqb d percent) eqn:Hd; [|done].
    apply Ascii.eqb_eq in Hd as ->.
    destruct (matchHere y afterPercent) as [m|] eqn:Hy; [|done].
    intros [= <-].
    destruct (afterPercent_sound y m Hy) as (v & rest & -> & Hv & Hdv & ->).
    exists (String c ""), v, rest. simpl. by rewrite Hc.
Qed.









Example replace_keeps_carriage_return_line :
  replaceAllEmpty progressRe
    ("[ 50%] a.mp4" +:+ String carriageReturn nl)
  = "[ 50%] a.mp4" +:+ String carriageReturn nl.
Proof. vm_compute. reflexivity. Qed.

(** ** The result of a fulfilled promise *)







(** With [waitTimeout] 0 the wait step does not run. *)
Example no_wait_step_when_timeout_is_zero :
  trace (recordScreen failingRuntime (demoHeap {[ "waitTimeout" := VNum 0 ]})
           "/tmp/test.mp4" (Some 1%positive))
  = [ExecFile [VStr "shell"; VStr "screenrecord"; VStr "--verbose";
               VStr "/sdcard/Movies/0123456789abcdef0123456789abcdef.mp4"]].
Proof. vm_compute. reflexivity. Qed.

(** * Further properties *)

(** ** The replacement as a filter on lines *)







Lemma replace_identity_without_match s :
  test progressRe s = false → replaceAllEmpty progressRe s = s.
Proof.
  induction s as [|c s IH]; [done|].
  rewrite test_unfold.
  destruct (matchHere (String c s) progressRe) eqn:Hm; [done|].
  intros Ht. rewrite (replace_keep _ _ Hm). by rewrite IH.
Qed.

(** X2.  The replacement is idempotent: applied to its own output it
    changes nothing. *)
Theorem replace_idempotent s :
  replaceAllEmpty progressRe (replaceAllEmpty progressRe s)
  = replaceAllEmpty progressRe s.
Proof.
  apply replace_identity_without_match, (replaceFrom_no_match s 0).
Qed.

Lemma no_percent_no_match s :
  allChars (λ c, negb (Ascii.eqb c percent)) s = true →
  matchHere s progressRe = None.
Proof.
  intros Hs. destruct (matchHere s progressRe) as [n|] eqn:Hm; [|done].
  destruct (progressRe_sound s n Hm) as (u & v & rest & -> & _).
  rewrite allChars_app in Hs. simpl in Hs.
  by rewrite andb_false_r in Hs.
Qed.

(** X3.  A pull output without a percent sign is appended unchanged. *)
Theorem replace_keeps_text_without_percent s :
  allChars (λ c, negb (Ascii.eqb c percent)) s = true →
  replaceAllEmpty progressRe s = s.
Proof.
  induction s as [|c s IH]; [done|]. intros Hs.
  rewrite replace_keep by by apply no_percent_no_match.
  simpl in Hs. apply andb_true_iff in Hs as [_ Hs]. by rewrite IH.
Qed.

Lemma replace_keeps_text_without_percent_witness :
  replaceAllEmpty progressRe ("/sdcard/Movies/a.mp4: 1 file pulled." +:+ nl)
  = "/sdcard/Movies/a.mp4: 1 file pulled." +:+ nl.
Proof.
  apply (replace_keeps_text_without_percent
           ("/sdcard/Movies/a.mp4: 1 file pulled." +:+ nl)).
  vm_compute. reflexivity.
Defined.

(** ** The merged options *)

(** X4.  In every state of a call, a property that the caller's object
    has, be its value [undefined], is the one the code reads; a property
    the object does not have is read from the defaults ([port] 5555,
    [waitTimeout] 5000, [pullDelay] 200) and is [undefined] otherwise. *)
Theorem merged_option_lookup rt h f options s k :
  reachable rt h f options s →
  readOpts s k
  = match callerOptions h options !! k with
    | Some v => v
    | None => default VUndef (defaultOptions !! k)
    end.
Proof.
  intros Hr. destruct (reachable_closure _ _ _ _ _ Hr) as [_ ->].
  unfold get. rewrite lookup_union.
  by destruct (callerOptions h options !! k), (defaultOptions !! k).
Qed.

Lemma merged_option_lookup_witness :
  readOpts demoEnd "port"
  = match callerOptions (demoHeap demoOptions) (Some 1%positive) !! "port" with
    | Some v => v
    | None => default VUndef (defaultOptions !! "port")
    end.
Proof.
  apply (merged_option_lookup demoRuntime (demoHeap demoOptions) "/tmp/test.mp4"
           (Some 1%positive) demoEnd "port").
  exists demoInputs. vm_compute. reflexivity.
Defined.

(** An explicit [undefined] switches the wait step off, as 0 does. *)
Example undefined_waitTimeout_disables_wait :
  trace (recordScreen failingRuntime (demoHeap {[ "waitTimeout" := VUndef ]})
           "/tmp/test.mp4" (Some 1%positive))
  = [ExecFile [VStr "shell"; VStr "screenrecord"; VStr "--verbose";
               VStr "/sdcard/Movies/0123456789abcdef0123456789abcdef.mp4"]].
Proof. vm_compute. reflexivity. Qed.

(** ** The order of the invocations *)

(** X5.  When [recordScreen] returns, the trace holds, in this order: the
    connect invocation if [hostname] is truthy; the wait invocation, with
    [waitTimeout] as its time limit, if [waitTimeout] is truthy and the
    connect step did not fail; and the record invocation if no step
    failed.  The promise is rejected with the error of the failed step, or
    the record process is awaited. *)
Theorem synchronous_part_of_a_call rt h f options :
  let s := recordScreen rt h f options in
  trace s
  = match connectResult rt s with
    | Some _ => [ExecFileSync (connectArgs s) None]
    | None => []
    end
    ++ match failureOf (connectResult rt s), waitResult rt s with
       | None, Some _ => [ExecFileSync waitArgs (Some (readOpts s "waitTimeout"))]
       | _, _ => []
       end
    ++ match preflightError rt s with
       | None => [ExecFile (args (cl s))]
       | Some _ => []
       end ∧
  promise s
  = match preflightError rt s with
    | None => Recording
    | Some e => Rejected e
    end.
Proof.
  intros s. pose proof (recordScreen_spec rt h f options) as H.
  fold s in H. simpl in H.
  destruct (preflightError rt s) as [e|].
  - destruct H as (-> & -> & _). unfold preflightTrace.
    by rewrite (right_id_L [] (++)).
  - destruct H as (-> & -> & _). unfold preflightTrace, recordEv.
    by rewrite (assoc_L (++)).
Qed.

(** X6.  In every state of a call the trace is a beginning of one fixed
    sequence: the synchronous invocations, the record invocation, the
    signals sent by [stop], the timer, the pull and the delete
    invocation.  So each step is invoked at most once, in this order, and
    signals are sent to the record process only. *)
Theorem trace_is_prefix_of_the_sequence rt h f options s :
  reachable rt h f options s →
  ∃ n, trace s `prefix_of`
         preflightTrace rt s
           ++ recordEv s :: kills n ++ [timerEv s; pullEv s; deleteEv s].
Proof.
  intros Hr. destruct (reachable_inv _ _ _ _ _ Hr) as (_&_&_&_&Hinv).
  unfold traceInv in Hinv.
  assert (Hshape : ∃ n tl1 tl2,
            [timerEv s; pullEv s; deleteEv s] = tl1 ++ tl2 ∧
            (trace s = preflightTrace rt s ∨
             trace s = preflightTrace rt s ++ recordEv s :: kills n ++ tl1)).
  { pose (full := [timerEv s; pullEv s; deleteEv s]).
    destruct (promise s); try done.
    - destruct Hinv as (n & -> & _). exists n, [], full.
      split; [done|]. right. by rewrite (right_id_L [] (++)).
    - destruct Hinv as (_ & n & ->).
      exists n, [timerEv s], [pullEv s; deleteEv s]. by split; [|right].
    - destruct Hinv as (_ & n & ->).
      exists n, [timerEv s; pullEv s], [deleteEv s]. by split; [|right].
    - destruct Hinv as (_ & n & ->). exists n, full, []. by split; [|right].
    - destruct Hinv as (_ & n & ->). exists n, full, []. by split; [|right].
    - destruct Hinv as (_ & [->|[[_ [n ->]]|[[n ->]|[n ->]]]]).
      + exists 0%nat, [], full. split; [done|]. by left.
      + exists n, [], full. split; [done|]. right.
        by rewrite (right_id_L [] (++)).
      + exists n, [timerEv s; pullEv s], [deleteEv s]. by split; [|right].
      + exists n, full, []. by split; [|right]. }
  destruct Hshape as (n & tl1 & tl2 & Htl & [Ht|Ht]); exists n; rewrite Ht.
  - by apply prefix_app_r.
  - rewrite Htl. exists tl2.
    by rewrite <- !(assoc_L (++)), <- !app_comm_cons, <- !(assoc_L (++)).
Qed.

Lemma trace_is_prefix_witness :
  ∃ n, trace demoPulling `prefix_of`
         preflightTrace demoRuntime demoPulling
           ++ recordEv demoPulling
              :: kills n ++ [timerEv demoPulling; pullEv demoPulling;
                             deleteEv demoPulling].
Proof.
  apply (trace_is_prefix_of_the_sequence demoRuntime (demoHeap demoOptions)
           "/tmp/test.mp4" (Some 1%positive) demoPulling).
  exists [RecordExit None "" ""; TimerFired]. vm_compute. reflexivity.
Defined.

(** X7.  A fulfilled promise is final, and it is fulfilled after every
    step has run once: the trace is the synchronous invocations, the
    record invocation, the signals, the timer, the pull and the delete
    invocation, and no input changes the state any more. *)
Theorem fulfilled_is_final_and_complete rt h f options s r :
  reachable rt h f options s → promise s = Fulfilled r →
  (∃ n, trace s
        = preflightTrace rt s
            ++ recordEv s :: kills n ++ [timerEv s; pullEv s; deleteEv s]) ∧
  preflightError rt s = None ∧
  ∀ ins s', run s ins = Some s' → s' = s.
Proof.
  intros Hr Hp. destruct (reachable_inv _ _ _ _ _ Hr) as (Hs & Hc & _ & _ & Hinv).
  unfold traceInv in Hinv. rewrite Hp in Hinv. destruct Hinv as (Hrp & n & Ht).
  split; [by exists n|]. split.
  - destruct (preflight_frame rt _ _ Hs Hc) as (_ & _ & -> & _).
    pose proof (recordScreen_spec rt h f options) as Hspec. simpl in Hspec.
    destruct (preflightError rt _) as [e|] eqn:He; [|done].
    destruct Hspec as (Hp0 & _ & Hrp0). destruct Hr as [ins Hrun].
    assert (Hset : settled (recordScreen rt h f options))
      by (split; [done|by rewrite Hp0]).
    rewrite (settled_run _ _ _ Hset Hrun) in Hp. congruence.
  - intros ins s'. apply settled_run. split; [done|]. by rewrite Hp.
Qed.

Lemma fulfilled_is_final_witness :
  (∃ n, trace demoEnd
        = preflightTrace demoRuntime demoEnd
            ++ recordEv demoEnd
               :: kills n ++ [timerEv demoEnd; pullEv demoEnd; deleteEv demoEnd]) ∧
  preflightError demoRuntime demoEnd = None ∧
  ∀ ins s', run demoEnd ins = Some s' → s' = demoEnd.
Proof.
  apply (fulfilled_is_final_and_complete demoRuntime (demoHeap demoOptions)
           "/tmp/test.mp4" (Some 1%positive) demoEnd
           (mkResult ("connect" +:+ nl +:+ "wait-for-device" +:+ nl
                        +:+ "Broadcast completed" +:+ nl) "")).
  - exists demoInputs. vm_compute. reflexivity.
  - vm_compute. reflexivity.
Defined.



(** X9.  When no synchronous step fails and the record, pull and delete
    processes end without an error, the promise is fulfilled, with the
    outputs of the steps in their order. *)
Theorem successful_run_is_fulfilled rt h f options out err p d :
  let s0 := recordScreen rt h f options in
  preflightError rt s0 = None →
  ∃ s, run s0 [RecordExit None out err; TimerFired; PullDone (inr p);
               DeleteDone (inr d)] = Some s ∧
       promise s
       = Fulfilled
           (mkResult
              (join [outputOf (connectResult rt s0); outputOf (waitResult rt s0);
                     Some out]
                 +:+ replaceAllEmpty progressRe (stdout p) +:+ stdout d)
              (err +:+ stderr p +:+ stderr d)).
Proof.
  intros s0 He. pose proof (recordScreen_spec rt h f options) as H.
  fold s0 in H. simpl in H. rewrite He in H.
  destruct H as (Hp & _ & Hrp & Hco & Hwo).
  assert (H1 : step s0 (RecordExit None out err)
               = Some (recordingCallback s0 None out err)).
  { unfold step. by rewrite Hp, Hrp. }
  eexists. split.
  - change (run s0 (?i :: ?l)) with (match step s0 i with
                                     | Some s' => run s' l
                                     | None => None
                                     end).
    rewrite H1. reflexivity.
  - simpl. rewrite Hco, Hwo. unfold deleteFileThen, pullFileThen. simpl.
    by rewrite !string_app_assoc.
Qed.

Lemma successful_run_witness :
  ∃ s, run demoCall [RecordExit None "out" "err"; TimerFired;
                     PullDone (inr (mkResult "pulled" ""));
                     DeleteDone (inr (mkResult "deleted" ""))] = Some s ∧
       promise s
       = Fulfilled
           (mkResult
              (join [outputOf (connectResult demoRuntime demoCall);
                     outputOf (waitResult demoRuntime demoCall); Some "out"]
                 +:+ replaceAllEmpty progressRe (stdout (mkResult "pulled" ""))
                 +:+ stdout (mkResult "deleted" ""))
              ("err" +:+ stderr (mkResult "pulled" "")
                 +:+ stderr (mkResult "deleted" ""))).
Proof.
  apply (successful_run_is_fulfilled demoRuntime (demoHeap demoOptions)
           "/tmp/test.mp4" (Some 1%positive) "out" "err"
           (mkResult "pulled" "") (mkResult "deleted" "")).
  vm_compute. reflexivity.
Defined.

(** ** Properties the code does not read *)

Ltac documented H :=
  unfold documentedOptions in H;
  repeat (apply Forall_cons in H as [? H]).

Lemma sameButStore_connectStep rt s1 s2 :
  sameButStore s1 s2 →
  match connectStep rt s1, connectStep rt s2 with
  | inl a, inl b | inr a, inr b => sameButStore a b
  | _, _ => False
  end.
Proof.
  intros (Hc & Hco & Hwo & Hrp & Hp & Ht & Hk).
  assert (Hk' := Hk). documented Hk'.
  unfold connectStep, connectArgs.
  replace (readOpts s2 "hostname") with (readOpts s1 "hostname") by done.
  replace (readOpts s2 "port") with (readOpts s1 "port") by done.
  destruct (truthy _); [destruct (execFileSync _ _ _)|];
    unfold sameButStore; simpl; by rewrite ?Ht.
Qed.

Lemma sameButStore_waitStep rt s1 s2 :
  sameButStore s1 s2 →
  match waitStep rt s1, waitStep rt s2 with
  | inl a, inl b | inr a, inr b => sameButStore a b
  | _, _ => False
  end.
Proof.
  intros (Hc & Hco & Hwo & Hrp & Hp & Ht & Hk).
  assert (Hk' := Hk). documented Hk'.
  unfold waitStep.
  replace (readOpts s2 "waitTimeout") with (readOpts s1 "waitTimeout") by done.
  destruct (truthy _); [destruct (execFileSync _ _ _)|];
    unfold sameButStore; simpl; by rewrite ?Ht.
Qed.

Lemma sameButStore_step s1 s2 i s1' :
  sameButStore s1 s2 → step s1 i = Some s1' →
  ∃ s2', step s2 i = Some s2' ∧ sameButStore s1' s2'.
Proof.
  intros Hsame H. pose proof Hsame as (Hc & Hco & Hwo & Hrp & Hp & Ht & Hk).
  assert (Hk' := Hk). documented Hk'.
  unfold step in *. rewrite <- Hp, <- Hrp.
  destruct i.
  - destruct (recordingProcess s1) as [p|] eqn:Hrp1.
    + rewrite (stop_active _ _ Hrp1) in H. injection H as <-.
      rewrite (stop_active s2 p) by congruence.
      eexists; split; [done|]. unfold sameButStore; simpl. by rewrite Ht.
    + rewrite (stop_inactive _ Hrp1) in H. injection H as <-.
      rewrite (stop_inactive s2) by congruence.
      eexists; split; [done|]. exact Hsame.
  - destruct (promise s1); try done.
    destruct (recordingProcess s1) as [p|]; [|done]. injection H as <-.
    eexists; split; [done|]. unfold recordingCallback.
    destruct (failedUnkilled _); unfold sameButStore; simpl;
      rewrite ?Hc, ?Hco, ?Hwo, ?Ht; try done.
    replace (readOpts (set_recordingProcess None s2) "pullDelay")
      with (readOpts (set_recordingProcess None s1) "pullDelay") by done.
    done.
  - destruct (promise s1); try done. injection H as <-.
    eexists; split; [done|]. unfold sameButStore, pullFile; simpl.
    by rewrite Hc, Ht.
  - destruct (promise s1), r; try done; injection H as <-;
      (eexists; split; [done|]); unfold sameButStore, deleteFile; simpl;
      by rewrite ?Hc, ?Ht.
  - destruct (promise s1), r; try done; injection H as <-;
      (eexists; split; [done|]); unfold sameButStore; simpl; by rewrite ?Hc, ?Ht.
Qed.

Lemma sameButStore_run s1 s2 ins s1' :
  sameButStore s1 s2 → run s1 ins = Some s1' →
  ∃ s2', run s2 ins = Some s2' ∧ sameButStore s1' s2'.
Proof.
  revert s1 s2. induction ins as [|i ins IH]; intros s1 s2 Hsame; simpl.
  - intros [= <-]. by exists s2.
  - destruct (step s1 i) as [s1a|] eqn:E; [|done]. intros Hrun.
    destruct (sameButStore_step _ _ _ _ Hsame E) as (s2a & -> & Hsame').
    by apply (IH s1a).
Qed.

Lemma sameButStore_sym s1 s2 : sameButStore s1 s2 → sameButStore s2 s1.
Proof.
  intros (?&?&?&?&?&?&Hk). repeat split; try done.
  eapply Forall_impl; [exact Hk|]. by intros k ->.
Qed.

Lemma sameButStore_recordScreen rt h f lo1 lo2 (o1 o2 : obj) :
  h !! lo1 = Some o1 → h !! lo2 = Some o2 →
  Forall (λ k, o1 !! k = o2 !! k) documentedOptions →
  sameButStore (recordScreen rt h f (Some lo1)) (recordScreen rt h f (Some lo2)).
Proof.
  intros H1 H2 Hk.
  assert (Hst : sameButStore (start rt h f (Some lo1)) (start rt h f (Some lo2))).
  { assert (Hget : Forall (λ k, get o1 k = get o2 k) documentedOptions).
    { eapply Forall_impl; [exact Hk|]. intros k Hkk. unfold get. by rewrite Hkk. }
    unfold sameButStore. split; [|repeat split; try done].
    - rewrite <- (proj2 (recordScreen_frame rt h f (Some lo1))).
      rewrite <- (proj2 (recordScreen_frame rt h f (Some lo2))).
      rewrite !recordScreen_closure. simpl. rewrite H1, H2. simpl.
      rewrite !buildADBArgs_merged, !buildScreenRecordArgs_merged.
      documented Hget. unfold buildADBArgs, buildScreenRecordArgs.
      repeat match goal with H : get o1 _ = _ |- _ => rewrite H; clear H end.
      done.
    - eapply Forall_impl; [exact Hk|]. intros k Hkk. unfold readOpts.
      rewrite !start_opts. simpl. rewrite H1, H2. simpl.
      unfold get. by rewrite !lookup_union, Hkk. }
  rewrite !recordScreen_start.
  pose proof (sameButStore_connectStep rt _ _ Hst) as Hcon.
  destruct (connectStep rt (start rt h f (Some lo1))) as [a|a],
    (connectStep rt (start rt h f (Some lo2))) as [b|b]; try done.
  pose proof (sameButStore_waitStep rt _ _ Hcon) as Hw.
  destruct (waitStep rt a) as [a'|a'], (waitStep rt b) as [b'|b']; try done.
  destruct Hw as (Hc & Hco & Hwo & Hrp & Hp & Ht & Hkk).
  unfold sameButStore, recordingExecutor; simpl. by rewrite Hc, Ht.
Qed.

(** X10.  The behaviour of a call depends on the caller's object through
    ten properties only ([serial], [transportID], [hostname], [port],
    [waitTimeout], [bugreport], [size], [bitRate], [timeLimit],
    [pullDelay]): two objects that have the same of these, with the same
    values, give the same invocations and the same promise after every
    sequence of inputs. *)
Theorem behaviour_depends_on_documented_options rt h f lo1 lo2 (o1 o2 : obj) ins :
  h !! lo1 = Some o1 → h !! lo2 = Some o2 →
  Forall (λ k, o1 !! k = o2 !! k) documentedOptions →
  (trace <$> run (recordScreen rt h f (Some lo1)) ins)
  = (trace <$> run (recordScreen rt h f (Some lo2)) ins) ∧
  (promise <$> run (recordScreen rt h f (Some lo1)) ins)
  = (promise <$> run (recordScreen rt h f (Some lo2)) ins).
Proof.
  intros H1 H2 Hk.
  pose proof (sameButStore_recordScreen rt h f lo1 lo2 o1 o2 H1 H2 Hk) as Hsame.
  destruct (run (recordScreen rt h f (Some lo1)) ins) as [s1|] eqn:E1.
  - destruct (sameButStore_run _ _ _ _ Hsame E1)
      as (s2 & -> & (_&_&_&_&Hp&Ht&_)).
    simpl. by rewrite Hp, Ht.
  - destruct (run (recordScreen rt h f (Some lo2)) ins) as [s2|] eqn:E2; [|done].
    destruct (sameButStore_run _ _ _ _ (sameButStore_sym _ _ Hsame) E2)
      as (s1 & Hs1 & _).
    congruence.
Qed.

Lemma behaviour_depends_witness :
  (trace <$> run (recordScreen demoRuntime
                    (<[2%positive := <["comment" := VStr "x"]> demoOptions]>
                       (demoHeap demoOptions))
                    "/tmp/test.mp4" (Some 1%positive)) demoInputs)
  = (trace <$> run (recordScreen demoRuntime
                      (<[2%positive := <["comment" := VStr "x"]> demoOptions]>
                         (demoHeap demoOptions))
                      "/tmp/test.mp4" (Some 2%positive)) demoInputs) ∧
  (promise <$> run (recordScreen demoRuntime
                      (<[2%positive := <["comment" := VStr "x"]> demoOptions]>
                         (demoHeap demoOptions))
                      "/tmp/test.mp4" (Some 1%positive)) demoInputs)
  = (promise <$> run (recordScreen demoRuntime
                        (<[2%positive := <["comment" := VStr "x"]> demoOptions]>
                           (demoHeap demoOptions))
                        "/tmp/test.mp4" (Some 2%positive)) demoInputs).
Proof.
  apply (behaviour_depends_on_documented_options demoRuntime
           (<[2%positive := <["comment" := VStr "x"]> demoOptions]>
              (demoHeap demoOptions))
           "/tmp/test.mp4" 1%positive 2%positive
           demoOptions (<["comment" := VStr "x"]> demoOptions) demoInputs).
  - vm_compute. reflexivity.
  - vm_compute. reflexivity.
  - repeat constructor.
Defined.

(** ** The remote file *)

Lemma string_app_inj_length (a b c d : string) :
  String.length a = String.length b → a +:+ c = b +:+ d → a = b ∧ c = d.
Proof.
  revert b. induction a as [|x a IH]; intros [|y b]; try done.
  simpl String.length. intros [= Hlen].
  change (String x a +:+ c) with (String x (a +:+ c)).
  change (String y b +:+ d) with (String y (b +:+ d)).
  intros [= -> Heq]. by destruct (IH b Hlen Heq) as [-> ->].
Qed.

Lemma string_app_inv_tail (a b c : string) : a +:+ c = b +:+ c → a = b.
Proof.
  intros Heq. apply (string_app_inj_length a b c c); [|done].
  apply (f_equal String.length) in Heq. rewrite !string_length_app in Heq. lia.
Qed.

Lemma deviceFileName_inj (id1 id2 : string) :
  "/sdcard/Movies/" +:+ id1 +:+ ".mp4" = "/sdcard/Movies/" +:+ id2 +:+ ".mp4" →
  id1 = id2.
Proof.
  intros Heq. apply (inj (String.append "/sdcard/Movies/")) in Heq.
  by apply string_app_inv_tail in Heq.
Qed.

Lemma deleteCmd_inj (d1 d2 : string) : deleteCmd d1 = deleteCmd d2 → d1 = d2.
Proof.
  unfold deleteCmd. intros Heq.
  apply (inj (String.append "rm ")) in Heq.
  apply string_app_inj_length in Heq as [? _]; [done|].
  apply (f_equal String.length) in Heq.
  rewrite !string_length_app in Heq. lia.
Qed.

Lemma args_last rt h f options s :
  reachable rt h f options s →
  last (args (cl s)) = Some (VStr (deviceFileName (cl s))).
Proof.
  intros Hr. destruct (reachable_closure _ _ _ _ _ Hr) as [-> _].
  cbn [args deviceFileName].
  by rewrite buildScreenRecordArgs_shape, !(assoc_L (++)), last_snoc.
Qed.

(** X11.  Two calls whose random identifiers differ work on different
    remote files: their record, pull and delete invocations all differ,
    whatever their options and local file names are. *)
Theorem different_identifiers_never_collide
    rt1 h1 f1 options1 s1 rt2 h2 f2 options2 s2 :
  reachable rt1 h1 f1 options1 s1 → reachable rt2 h2 f2 options2 s2 →
  randomBytesHex rt1 ≠ randomBytesHex rt2 →
  deviceFileName (cl s1) ≠ deviceFileName (cl s2) ∧
  recordEv s1 ≠ recordEv s2 ∧ pullEv s1 ≠ pullEv s2 ∧ deleteEv s1 ≠ deleteEv s2.
Proof.
  intros Hr1 Hr2 Hid.
  destruct (reachable_closure _ _ _ _ _ Hr1) as [Hc1 _].
  destruct (reachable_closure _ _ _ _ _ Hr2) as [Hc2 _].
  assert (Hdev : deviceFileName (cl s1) ≠ deviceFileName (cl s2)).
  { rewrite Hc1, Hc2. simpl. by intros Heq%deviceFileName_inj. }
  split; [done|]. unfold recordEv, pullEv, deleteEv, pullArgs, deleteArgs.
  split; [|split].
  - intros [= Heq]. apply Hdev. apply (f_equal last) in Heq.
    rewrite (args_last _ _ _ _ _ Hr1), (args_last _ _ _ _ _ Hr2) in Heq.
    by injection Heq.
  - intros [= Heq]. apply Hdev.
    apply app_inj_2 in Heq as [_ Heq]; [|done]. by injection Heq.
  - intros [= Heq]. apply Hdev.
    apply app_inj_2 in Heq as [_ Heq]; [|done].
    apply deleteCmd_inj.
    by apply (f_equal (λ l, match l with [_; VStr c] => c | _ => "" end)) in Heq.
Qed.

Lemma different_identifiers_witness :
  deviceFileName (cl demoEnd)
  ≠ deviceFileName (cl (recordScreen (mkRuntime "ff" (execFileSync demoRuntime))
                          ∅ "/tmp/test.mp4" None)) ∧
  recordEv demoEnd
  ≠ recordEv (recordScreen (mkRuntime "ff" (execFileSync demoRuntime))
                ∅ "/tmp/test.mp4" None) ∧
  pullEv demoEnd
  ≠ pullEv (recordScreen (mkRuntime "ff" (execFileSync demoRuntime))
              ∅ "/tmp/test.mp4" None) ∧
  deleteEv demoEnd
  ≠ deleteEv (recordScreen (mkRuntime "ff" (execFileSync demoRuntime))
                ∅ "/tmp/test.mp4" None).
Proof.
  apply (different_identifiers_never_collide
           demoRuntime (demoHeap demoOptions) "/tmp/test.mp4" (Some 1%positive)
           demoEnd
           (mkRuntime "ff" (execFileSync demoRuntime)) ∅ "/tmp/test.mp4" None
           (recordScreen (mkRuntime "ff" (execFileSync demoRuntime))
              ∅ "/tmp/test.mp4" None)).
  - exists demoInputs. vm_compute. reflexivity.
  - exists []. reflexivity.
  - vm_compute. discriminate.
Defined.

Lemma toHex_length bytes :
  String.length (toHex bytes) = (2 * length bytes)%nat.
Proof. induction bytes as [|b bytes IH]; [done|]. simpl. rewrite IH. lia. Qed.

Lemma hexByte_plain b :
  plainChar (hexDigit (Byte.to_N b / 16)%N) = true ∧
  plainChar (hexDigit (Byte.to_N b mod 16)%N) = true.
Proof. destruct b; split; vm_compute; reflexivity. Qed.

Lemma toHex_plain bytes : allChars plainChar (toHex bytes) = true.
Proof.
  induction bytes as [|b bytes IH]; [done|].
  destruct (hexByte_plain b) as [H1 H2]. simpl. by rewrite H1, H2, IH.
Qed.

Lemma hexByte_back b :
  hexValue (hexDigit (Byte.to_N b / 16)%N) = Some (Byte.to_N b / 16)%N ∧
  hexValue (hexDigit (Byte.to_N b mod 16)%N) = Some (Byte.to_N b mod 16)%N.
Proof. destruct b; split; vm_compute; reflexivity. Qed.

Lemma fromHex_toHex bytes : fromHex (toHex bytes) = Some bytes.
Proof.
  induction bytes as [|b bytes IH]; [done|].
  destruct (hexByte_back b) as [H1 H2].
  simpl. rewrite H1, H2, IH.
  replace (16 * (Byte.to_N b / 16) + Byte.to_N b mod 16)%N with (Byte.to_N b)
    by (rewrite (N.div_mod (Byte.to_N b) 16) at 1; [done|lia]).
  by rewrite Byte.of_to_N.
Qed.

(** X12.  With the identifier [crypto.randomBytes(16).toString('hex')],
    the remote file name is [/sdcard/Movies/], 32 hexadecimal digits and
    [.mp4]: it has 51 characters, all of them letters, digits, slashes or
    dots, so the command line of the delete step holds no character of the
    identifier that the remote shell would interpret; and calls that draw
    different bytes use different remote files. *)
Theorem remote_file_name_is_plain rt h f options s bytes :
  reachable rt h f options s →
  randomBytesHex rt = toHex bytes → length bytes = 16%nat →
  deviceFileName (cl s) = "/sdcard/Movies/" +:+ toHex bytes +:+ ".mp4" ∧
  String.length (deviceFileName (cl s)) = 51%nat ∧
  allChars plainChar (deviceFileName (cl s)) = true ∧
  ∀ rt' h' f' options' s' bytes',
    reachable rt' h' f' options' s' → randomBytesHex rt' = toHex bytes' →
    bytes ≠ bytes' → deviceFileName (cl s) ≠ deviceFileName (cl s').
Proof.
  intros Hr Hid Hlen. destruct (reachable_closure _ _ _ _ _ Hr) as [Hc _].
  rewrite Hc. simpl. rewrite Hid. split; [done|]. split; [|split].
  - rewrite !string_length_app, toHex_length, Hlen. done.
  - rewrite !allChars_app, toHex_plain. done.
  - intros rt' h' f' options' s' bytes' Hr' Hid' Hne.
    destruct (reachable_closure _ _ _ _ _ Hr') as [Hc' _].
    rewrite Hc'. simpl. rewrite Hid'.
    intros Heq%deviceFileName_inj. apply Hne.
    apply (f_equal fromHex) in Heq. rewrite !fromHex_toHex in Heq.
    by injection Heq.
Qed.

Lemma remote_file_name_witness :
  deviceFileName (cl demoEnd)
  = "/sdcard/Movies/"
      +:+ toHex (concat (replicate 2
                  [Byte.x01; Byte.x23; Byte.x45; Byte.x67;
                   Byte.x89; Byte.xab; Byte.xcd; Byte.xef]))
      +:+ ".mp4" ∧
  String.length (deviceFileName (cl demoEnd)) = 51%nat ∧
  allChars plainChar (deviceFileName (cl demoEnd)) = true ∧
  ∀ rt' h' f' options' s' bytes',
    reachable rt' h' f' options' s' → randomBytesHex rt' = toHex bytes' →
    concat (replicate 2 [Byte.x01; Byte.x23; Byte.x45; Byte.x67;
                         Byte.x89; Byte.xab; Byte.xcd; Byte.xef]) ≠ bytes' →
    deviceFileName (cl demoEnd) ≠ deviceFileName (cl s').
Proof.
  apply (remote_file_name_is_plain demoRuntime (demoHeap demoOptions)
           "/tmp/test.mp4" (Some 1%positive) demoEnd).
  - exists demoInputs. vm_compute. reflexivity.
  - vm_compute. reflexivity.
  - vm_compute. reflexivity.
Defined.

(** ** The arguments of the record command *)

Lemma pretty_N_go_nonempty x s : s ≠ "" → pretty_N_go x s ≠ "".
Proof.
  revert s. induction (N.lt_wf_0 x) as [x _ IH]; intros s Hs.
  destruct (decide (x = 0%N)) as [->|Hx]; [by rewrite pretty_N_go_0|].
  rewrite pretty_N_go_step by lia. apply IH; [|done].
  apply N.div_lt; lia.
Qed.

Lemma pretty_positive_nonempty (p : positive) : pretty p ≠ "".
Proof.
  unfold pretty, pretty_positive, pretty, pretty_N.
  destruct (decide _); [done|].
  rewrite pretty_N_go_step by lia. by apply pretty_N_go_nonempty.
Qed.

Lemma toString_nonempty_of_truthy v : truthy v = true → toString v ≠ "".
Proof.
  destruct v as [|[|]|n|s]; simpl; try done.
  - intros _. destruct n as [|p|p]; [done| |].
    + apply pretty_positive_nonempty.
    + unfold pretty, pretty_Z. done.
  - intros Hs ->. done.
Qed.

Lemma flag_truthy v (xs : list value) (P : value → Prop) :
  (truthy v = true → Forall P xs) → Forall P (flag (truthy v) xs).
Proof. unfold flag. destruct (truthy v); auto. Qed.

(** X13.  No argument of the record command is empty: every one is a
    truthy value whose string is not empty, so an option that is
    [undefined], [false], 0 or the empty string never reaches the command
    line. *)
Theorem record_command_has_no_empty_argument rt h f options s :
  reachable rt h f options s →
  Forall (λ a, truthy a = true ∧ toString a ≠ "") (args (cl s)).
Proof.
  intros Hr. destruct (reachable_closure _ _ _ _ _ Hr) as [-> _].
  cbn [args]. rewrite buildScreenRecordArgs_shape. unfold selectors.
  set (P := λ a : value, truthy a = true ∧ toString a ≠ "").
  assert (Hval : ∀ x : value, truthy x = true → P x)
    by (intros x Hx; split; [done|by apply toString_nonempty_of_truthy]).
  assert (Hstr : ∀ x : string, x ≠ "" → P (VStr x)).
  { intros x Hx. apply Hval. simpl. by destruct x. }
  assert (Hone : ∀ x : value, P x → Forall P [x])
    by (intros x Hx; by apply Forall_singleton).
  assert (Htwo : ∀ x y : value, P x → P y → Forall P [x; y])
    by (intros x y Hx Hy; apply Forall_cons; split; [done|by apply Hone]).
  repeat (apply Forall_app; split).
  - apply flag_truthy. intros Ht. apply Htwo; [by apply Hstr|by apply Hval].
  - apply flag_truthy. intros Ht. apply Htwo; [by apply Hstr|by apply Hval].
  - apply Forall_cons; split; [by apply Hstr|]. by apply Htwo; apply Hstr.
  - apply flag_truthy. intros Ht. by apply Hone, Hstr.
  - apply flag_truthy. intros Ht. apply Htwo; [by apply Hstr|by apply Hval].
  - apply flag_truthy. intros Ht.
    apply Htwo; [by apply Hstr|by apply Hstr, toString_nonempty_of_truthy].
  - apply flag_truthy. intros Ht.
    apply Htwo; [by apply Hstr|by apply Hstr, toString_nonempty_of_truthy].
  - apply Hone, Hstr. done.
Qed.

Lemma record_command_has_no_empty_argument_witness :
  Forall (λ a, truthy a = true ∧ toString a ≠ "") (args (cl demoEnd)).
Proof.
  apply (record_command_has_no_empty_argument demoRuntime (demoHeap demoOptions)
           "/tmp/test.mp4" (Some 1%positive) demoEnd).
  exists demoInputs. vm_compute. reflexivity.
Defined.

(** ** The revisions of [index.js] agree *)

(** X14.  The record command of the earlier revision, which passed the
    bit rate and the time limit as they were, and the one of this revision,
    which converts them with [String], are the same once every argument is
    converted to a string. *)
Theorem legacy_record_arguments_agree fileName (options : obj) :
  toString <$> Legacy.buildScreenRecordArgs fileName options
  = toString <$> buildScreenRecordArgs fileName options.
Proof.
  unfold Legacy.buildScreenRecordArgs, buildScreenRecordArgs, push.
  by destruct (truthy (get options "bugreport")), (truthy (get options "size")),
    (truthy (get options "bitRate")), (truthy (get options "timeLimit")).
Qed.

(** X15.  The callback of the earlier revision, which put the wait output
    and the connect output in front of [stdout] when they were truthy,
    and the one of this revision, which joins the three, give the same
    state: an output that is missing or empty adds nothing either way. *)
Theorem legacy_callback_agrees s error out err :
  Legacy.recordingCallback s error out err = recordingCallback s error out err.
Proof.
  unfold Legacy.recordingCallback, recordingCallback, join.
  destruct (failedUnkilled error); [done|]. simpl.
  rewrite string_app_nil_r.
  destruct (connectOutput s) as [[|c co]|], (waitForDeviceOutput s) as [[|w wo]|];
    reflexivity.
Qed.

(** ** Repeated calls of [stop] *)



